(** * chessServer/index.js: session registry, move coordination and relay

    A shallow embedding of the socket handlers of [src/chessServer/index.js].
    The two module-level stores ([ongoingGames], [sessions]) are the state
    that every handler receives and returns, together with the rooms that
    [socket.join] has filled and the properties that [joinSession] has
    written on objects of the runtime; what a handler sends is the list of
    its emissions, in program order; an exception that leaves the handler is
    recorded next to the state reached when it was thrown.

    chess.js and socket.io are libraries, not part of the file: the first is
    an interface ([PositionEngine]), the second is modelled by who receives
    an emission, given the ids of the sockets that are connected and the
    rooms they have joined. *)

From Stdlib Require Import String Ascii NArith Bool List Lia.
From stdpp Require Import base option list strings.
Import ListNotations.

Open Scope string_scope.

(** ** JavaScript values *)

(** What a handler can throw: [JSON.parse] on a message that is no JSON
    text (or the later property read on a parsed [null]), a [TypeError] (a
    property read on [undefined], a call of what is no function, a
    conversion that fails), and the engine's constructor on a position text
    it refuses. *)
Inductive Exn : Type :=
  | BadMessage
  | TypeError
  | EngineError.

(** A value read from a parsed message or from a participant object: a
    field that is absent reads as [undefined], JSON has [null] and strings,
    and [Other] holds any other parsed value (a number, a boolean, an array,
    an object), of a type [J] that the runtime interprets. *)
Inductive Val (J : Type) : Type :=
  | Undefined
  | Null
  | Str (s : string)
  | Other (j : J).

Arguments Undefined {J}.
Arguments Null {J}.
Arguments Str {J} s.
Arguments Other {J} j.

(** The values that the file itself makes: the [id] of a participant is
    [socket.id] or the empty string, its [color] is one of two strings or
    the [undefined] of an empty [colors]; they are never another parsed
    value. *)
Definition Plain : Type := Val Empty_set.

(** [a === b] *)
Definition strict_eq (a b : Plain) : bool :=
  match a, b with
  | Undefined, Undefined => true
  | Null, Null => true
  | Str x, Str y => String.eqb x y
  | _, _ => false
  end.

(** [a != b] on such values: [null] and [undefined] are equal to each other
    and to nothing else. *)
Definition loose_neq (a b : Plain) : bool :=
  match a, b with
  | (Undefined | Null), (Undefined | Null) => false
  | Str x, Str y => negb (String.eqb x y)
  | _, _ => true
  end.

(** ToBoolean: [undefined], [null] and the empty string are falsy. *)
Definition truthy (v : Plain) : bool :=
  match v with
  | Undefined | Null => false
  | Str s => negb (String.eqb s "")
  | Other j => match j with end
  end.

(** [v === s] for a string literal [s]: only that string *)
Definition is_string {J} (v : Val J) (s : string) : bool :=
  match v with
  | Str x => String.eqb x s
  | _ => false
  end.

(** The two property names under which the rest of the file reads a
    participant *)
Inductive Slot : Type := student_slot | mentor_slot.

Definition slot_name (r : Slot) : string :=
  match r with student_slot => "student" | mentor_slot => "mentor" end.


(** What the runtime does with a parsed value that is neither [null] nor a
    string, and with the functions that every object inherits. *)
Record Runtime (J : Type) : Type := mkRuntime {
  (** [j == v], which is also [v == j]; the conversion of an object to a
      primitive can throw *)
  other_loose_eq : J -> Val J -> Exn + bool;
  (** the property key that [o[j]] uses, which is also the text of [j] in a
      template literal *)
  other_key : J -> Exn + string;
  (** whether [f[r]] is truthy for the function [f] that objects inherit
      under the name [k], where [r] is no name of [Object.prototype] and
      nothing has been written; reading can throw *)
  function_truthy : string -> string -> Exn + bool;
  (** whether [f[r] = x] creates the property *)
  function_keeps : string -> string -> bool
}.

Arguments other_loose_eq {J}.
Arguments other_key {J}.
Arguments function_truthy {J}.
Arguments function_keeps {J}.

(** ** The Position Engine (chess.js) *)

(** A [Chess] object is mutable: [move] and [undo] change the object and
    return a move, or [null] when there is nothing to do. Each operation
    gives the object as the call leaves it and whether the returned value
    is truthy. [Json] is the type of the parsed JSON values: the server
    passes them on (squares, pieces, coordinates, position texts; a field
    that is absent is [None]), and [javascript] says how the runtime
    compares them and makes keys of them. *)
Class PositionEngine : Type := {
  Json : Type;
  javascript : Runtime Json;
  Chess : Type;
  (** [new Chess()] *)
  chess_new : Chess;
  (** [new Chess(state)]; [None] when the constructor throws *)
  chess_load : option Json -> option Chess;
  (** [c.fen()] *)
  fen : Chess -> string;
  (** [c.move({ from, to })] *)
  chess_move : Chess -> option Json -> option Json -> Chess * bool;
  (** [c.undo()] *)
  chess_undo : Chess -> Chess * bool
}.

(** The engine's contract for the two calls whose result the server tests
    or ignores: a rejected move and an undo without history return [null]
    and leave the object as it was. *)
Class EngineContract (E : PositionEngine) : Prop := {
  move_rejected_keeps : forall c f t,
    snd (chess_move c f t) = false -> fst (chess_move c f t) = c;
  undo_nothing_keeps : forall c,
    snd (chess_undo c) = false -> fst (chess_undo c) = c
}.

Section Server.

Context {E : PositionEngine}.

(** [a == b] on the fields of a message and the usernames stored from
    earlier messages *)
Definition loose_eq (a b : Val Json) : Exn + bool :=
  match a, b with
  | Other j, v => other_loose_eq javascript j v
  | v, Other j => other_loose_eq javascript j v
  | (Undefined | Null), (Undefined | Null) => inr true
  | Str x, Str y => inr (String.eqb x y)
  | _, _ => inr false
  end.

(** ToPropertyKey, which [o[v]] and a computed key [[v]: ...] apply to [v];
    a template literal puts the same text. *)
Definition key_of (v : Val Json) : Exn + string :=
  match v with
  | Undefined => inr "undefined"
  | Null => inr "null"
  | Str s => inr s
  | Other j => other_key javascript j
  end.

(** The names that every object inherits from [Object.prototype] *)
Definition inherited_names : list string :=
  ["constructor"; "__defineGetter__"; "__defineSetter__"; "hasOwnProperty";
   "__lookupGetter__"; "__lookupSetter__"; "isPrototypeOf";
   "propertyIsEnumerable"; "toString"; "valueOf"; "__proto__";
   "toLocaleString"].

Definition inherited (k : string) : bool :=
  existsb (String.eqb k) inherited_names.

(** ** Data model *)

(** [{ username, id, color }] *)
Record Participant : Type := mkParticipant {
  username : Val Json;
  id : Plain;
  color : Plain
}.

(** What the property [boardState] of a stored object holds: the engine
    object, or the participant that [createSession] has put under that name
    when it was given [boardState] as the role. *)
Inductive Board : Type :=
  | Engine (c : Chess)
  | BoardHeld (p : Participant).

(** What the property [pastStates] holds: the array, or a participant in the
    same way. *)
Inductive Past : Type :=
  | States (l : list Chess)
  | PastHeld (p : Participant).

(** The object held by either store. In [ongoingGames] both participant
    properties are set by the literal of [newgame]; in [sessions] the literal
    of [createSession] sets one property under the name that the role gives,
    and [joinSession] adds more: [others] are the participants under names
    other than the four of the record, in the order in which they were
    written. *)
Record Game : Type := mkObject {
  student : option Participant;
  mentor : option Participant;
  boardState : Board;
  pastStates : Past;
  others : list (string * Participant)
}.

(** An object with its engine and its array of past states, and no property
    beyond the four *)
Definition mkGame (s m : option Participant) (c : Chess) (h : list Chess)
    : Game :=
  mkObject s m (Engine c) (States h) [].

Definition slot (r : Slot) (g : Game) : option Participant :=
  match r with student_slot => student g | mentor_slot => mentor g end.

(** [g.student = p], [g.mentor = p] *)
Definition set_slot (r : Slot) (p : Participant) (g : Game) : Game :=
  match r with
  | student_slot =>
      mkObject (Some p) (mentor g) (boardState g) (pastStates g) (others g)
  | mentor_slot =>
      mkObject (student g) (Some p) (boardState g) (pastStates g) (others g)
  end.

(** [g[r].id = v], for a participant that is there *)
Definition set_slot_id (r : Slot) (v : Plain) (g : Game) : Game :=
  match slot r g with
  | Some p => set_slot r (mkParticipant (username p) v (color p)) g
  | None => g
  end.

(** [g.boardState = b] *)
Definition set_boardState (b : Board) (g : Game) : Game :=
  mkObject (student g) (mentor g) b (pastStates g) (others g).

(** [g.student?.id], [g.mentor?.id] *)
Definition slot_id (o : option Participant) : Plain :=
  match o with Some p => id p | None => Undefined end.

(** *** Own property order of the [sessions] object

    [for (const sessionId in sessions)] visits the keys that are array
    indices first, in ascending numeric order, then the other keys in the
    order of their insertion. The store is the list of its entries in that
    order. [Object.prototype] is taken as the runtime made it, so that the
    loop visits own properties only. *)

Definition digit_of (a : ascii) : option N :=
  let n := N_of_ascii a in
  if (48 <=? n)%N && (n <=? 57)%N then Some (n - 48)%N else None.

Fixpoint decimal (acc : N) (s : string) : option N :=
  match s with
  | EmptyString => Some acc
  | String a rest =>
      match digit_of a with
      | Some d => decimal (acc * 10 + d)%N rest
      | None => None
      end
  end.

(** A key is an array index when it is the canonical decimal text of an
    integer below [2^32 - 1]. *)
Definition array_index (k : string) : option N :=
  match k with
  | EmptyString => None
  | String a rest =>
      if Ascii.eqb a "0"%char && negb (String.eqb rest "") then None
      else match decimal 0 k with
           | Some n => if (n <? 4294967295)%N then Some n else None
           | None => None
           end
  end.

Fixpoint insert_index {V} (n : N) (k : string) (v : V)
    (l : list (string * V)) : list (string * V) :=
  match l with
  | [] => [(k, v)]
  | (k', v') :: rest =>
      match array_index k' with
      | Some m =>
          if (m <? n)%N then (k', v') :: insert_index n k v rest
          else (k, v) :: l
      | None => (k, v) :: l
      end
  end.

(** [o[k] = v] for a key that [o] does not have yet *)
Definition own_insert {V} (k : string) (v : V)
    (l : list (string * V)) : list (string * V) :=
  match array_index k with
  | Some n => insert_index n k v l
  | None => l ++ [(k, v)]
  end.

(** The own property [k] of [o] *)
Fixpoint own_lookup {V} (k : string) (l : list (string * V)) : option V :=
  match l with
  | [] => None
  | (k', v) :: rest => if String.eqb k' k then Some v else own_lookup k rest
  end.

(** The object at [k] mutated in place *)
Fixpoint own_alter {V} (f : V -> V) (k : string)
    (l : list (string * V)) : list (string * V) :=
  match l with
  | [] => []
  | (k', v) :: rest =>
      if String.eqb k' k then (k', f v) :: rest
      else (k', v) :: own_alter f k rest
  end.

(** *** A participant under a computed key *)

(** [g[r] = p], also as the last property of the literal of
    [createSession]: a role that is the name of a property of the literal
    replaces what the literal has put there. *)
Definition set_property (r : string) (p : Participant) (g : Game) : Game :=
  if String.eqb r "student" then set_slot student_slot p g
  else if String.eqb r "mentor" then set_slot mentor_slot p g
  else if String.eqb r "boardState" then
    mkObject (student g) (mentor g) (BoardHeld p) (pastStates g) (others g)
  else if String.eqb r "pastStates" then
    mkObject (student g) (mentor g) (boardState g) (PastHeld p) (others g)
  else
    mkObject (student g) (mentor g) (boardState g) (pastStates g)
      (others g ++ [(r, p)]).

(** Whether [g[r]] is truthy: a participant, the engine object and the
    array are, and so is what [g] inherits under a name of
    [Object.prototype]. *)
Definition present {A} (o : option A) : bool :=
  match o with Some _ => true | None => false end.

Definition has_property (r : string) (g : Game) : bool :=
  if String.eqb r "student" then present (student g)
  else if String.eqb r "mentor" then present (mentor g)
  else if String.eqb r "boardState" then true
  else if String.eqb r "pastStates" then true
  else present (own_lookup r (others g)) || inherited r.

(** ** The registry *)

(** [rooms] lists the calls [socket.join(room)] as pairs of the socket id
    and the room; [written] lists the properties that [joinSession] has
    created on an object that [sessions] inherits, as pairs of the name under
    which it is inherited and the property. *)
Record World : Type := mkWorld {
  ongoingGames : list Game;
  sessions : list (string * Game);
  rooms : list (string * string);
  written : list (string * string)
}.

(** The state at process start *)
Definition initial : World := mkWorld [] [] [] [].

(** [Object.prototype] has the properties that the runtime gave it. The
    model follows the process up to the event that writes one more: from
    there every object of the process inherits it, the libraries' objects
    included. *)
Definition pristine (w : World) : Prop :=
  forall r, ~ In ("__proto__", r) (written w).

(** A reference to a game object, by the store that holds it and its
    position there ([sessions] in the order of its keys): handlers that find
    a game mutate the object where it is stored. *)
Inductive Ref : Type :=
  | InGames (i : nat)
  | InSessions (i : nat).

Definition deref (w : World) (r : Ref) : option Game :=
  match r with
  | InGames i => ongoingGames w !! i
  | InSessions i => snd <$> sessions w !! i
  end.

Definition mutate (f : Game -> Game) (r : Ref) (w : World) : World :=
  match r with
  | InGames i =>
      mkWorld (alter f i (ongoingGames w)) (sessions w) (rooms w) (written w)
  | InSessions i =>
      mkWorld (ongoingGames w)
        (alter (fun kv => (fst kv, f (snd kv))) i (sessions w))
        (rooms w) (written w)
  end.

(** [g.student?.id === socketId || g.mentor?.id === socketId] *)
Definition bound_to (sock : string) (g : Game) : bool :=
  strict_eq (slot_id (student g)) (Str sock)
  || strict_eq (slot_id (mentor g)) (Str sock).

(** A loop that returns at the first element that passes the test *)
Fixpoint find_first {A} (p : A -> bool) (l : list A) : option (nat * A) :=
  match l with
  | [] => None
  | x :: rest =>
      if p x then Some (0, x)
      else match find_first p rest with
           | Some (i, y) => Some (S i, y)
           | None => None
           end
  end.

(** The game object found, with the place where it is stored *)
Definition findCurrentGameBySocket (w : World) (sock : string)
    : option (Ref * Game) :=
  match find_first (bound_to sock) (ongoingGames w) with
  | Some (i, game) => Some (InGames i, game)
  | None =>
      match find_first (fun kv => bound_to sock (snd kv)) (sessions w) with
      | Some (i, (_, session)) => Some (InSessions i, session)
      | None => None
      end
  end.

(** ** Transport *)

Inductive Target : Type :=
  | ToSocket (sock : string)
  | ToAll.

Inductive Field : Type :=
  | FNull
  | FText (s : string)
  | FJson (j : Json).

(** What [emit] is given after the event name: the text of an object, a
    plain string, or nothing. *)
Inductive Payload : Type :=
  | Object (fields : list (string * Field))
  | Text (s : string)
  | NoPayload.

Record Emission : Type := mkEmission {
  target : Target;
  event : string;
  payload : Payload
}.

Definition of_val (v : Plain) : option Field :=
  match v with
  | Undefined => None
  | Null => Some FNull
  | Str s => Some (FText s)
  | Other j => match j with end
  end.

Definition of_json (j : option Json) : option Field := FJson <$> j.

(** [JSON.stringify] of an object literal: a property whose value is
    [undefined] is left out. *)
Fixpoint JSON_stringify_fields (o : list (string * option Field))
    : list (string * Field) :=
  match o with
  | [] => []
  | (k, Some v) :: rest => (k, v) :: JSON_stringify_fields rest
  | (_, None) :: rest => JSON_stringify_fields rest
  end.

Definition JSON_stringify (o : list (string * option Field)) : Payload :=
  Object (JSON_stringify_fields o).

(** The ids of the connected sockets, [io.sockets.sockets] *)
Definition Connected : Type := list string.

Definition is_connected (io : Connected) (s : string) : bool :=
  existsb (String.eqb s) io.

(** The connections that an emission reaches: the socket it is addressed
    to, when it is connected, or every connected socket. *)
Definition receivers (io : Connected) (e : Emission) : list string :=
  match target e with
  | ToSocket s => if is_connected io s then [s] else []
  | ToAll => io
  end.

(** [socket.emit(ev, p)] on the socket whose id is [sock] *)
Definition socket_emit (sock ev : string) (p : Payload) : list Emission :=
  [mkEmission (ToSocket sock) ev p].

(** The sockets that [socket.join(room)] has put in [room], each once, in
    the order of their first call *)
Fixpoint joined (room : string) (seen : list string)
    (l : list (string * string)) : list string :=
  match l with
  | [] => []
  | (s, r) :: rest =>
      if String.eqb r room && negb (existsb (String.eqb s) seen)
      then s :: joined room (s :: seen) rest
      else joined room seen rest
  end.

(** The members of [room]: the socket of that id, which socket.io puts in
    the room of its own name when it connects, and the sockets that have
    joined it. *)
Definition room_members (w : World) (room : string) : list string :=
  room :: joined room [room] (rooms w).

(** [io.to(room).emit(ev, p)]: one emission to each member of the room *)
Definition io_to_emit (w : World) (room ev : string) (p : Payload)
    : list Emission :=
  (fun s => mkEmission (ToSocket s) ev p) <$> room_members w room.

(** [io.emit(ev, p)] *)
Definition io_emit (ev : string) (p : Payload) : list Emission :=
  [mkEmission ToAll ev p].

(** [socket.join(room)] on the socket whose id is [sock] *)
Definition socket_join (sock room : string) (w : World) : World :=
  mkWorld (ongoingGames w) (sessions w) (rooms w ++ [(sock, room)])
    (written w).

Definition safeEmit (io : Connected) (socketId : Plain) (ev : string)
    (p : Payload) : list Emission :=
  if negb (truthy socketId) then []
  else match socketId with
       | Str s => if is_connected io s then socket_emit s ev p else []
       | _ => []
       end.

(** ** Handler results *)

Record Outcome : Type := mkOutcome {
  world : World;
  emitted : list Emission;
  raised : option Exn
}.

Definition returns (w : World) (out : list Emission) : Outcome :=
  mkOutcome w out None.

Definition throw (w : World) (out : list Emission) (e : Exn) : Outcome :=
  mkOutcome w out (Some e).

(** ** Messages *)

(** The object that [JSON.parse(msg)] gives, by handler. A message that is
    [None] is one on which the handler throws where it parses the message
    and reads its fields: a text that [JSON.parse] refuses, or [null] when a
    field is read. ([undo] and [piecedrop] read no field: there a parsed
    [null] is an object without fields.) *)
Record GameMsg : Type := mkGameMsg {
  msg_student : Val Json;
  msg_mentor : Val Json;
  msg_role : Val Json
}.

(** [{ sessionId, username, role }], with [sessionId] as the property key
    it is used as and [role] as it was parsed: [createSession] and
    [joinSession] compare it with a string and use it as a computed key.
    The room that [socket.join] is given is taken to be that key, as it is
    for an id that is a string. *)
Record SessionMsg : Type := mkSessionMsg {
  msg_sessionId : string;
  msg_username : Val Json;
  msg_sessionRole : Val Json
}.

(** A message whose fields are only passed on *)
Definition Obj : Type := list (string * Json).

Fixpoint field (name : string) (o : Obj) : option Json :=
  match o with
  | [] => None
  | (k, v) :: rest => if String.eqb k name then Some v else field name rest
  end.

(** [{ student, mentor }] of [endgame] *)
Record EndMsg : Type := mkEndMsg {
  end_student : Val Json;
  end_mentor : Val Json
}.

(** ** newgame *)

(** [game.student.username == parsedmsg.student ||
     game.mentor.username == parsedmsg.mentor] *)
Definition same_player (m : GameMsg) (g : Game) : Exn + bool :=
  match student g with
  | None => inl TypeError
  | Some ps =>
      match loose_eq (username ps) (msg_student m) with
      | inl e => inl e
      | inr true => inr true
      | inr false =>
          match mentor g with
          | None => inl TypeError
          | Some pm => loose_eq (username pm) (msg_mentor m)
          end
      end
  end.

(** The loop over [ongoingGames] that stops at the first game of either
    player *)
Fixpoint ongoing_game (m : GameMsg) (l : list Game)
    : Exn + option (nat * Game) :=
  match l with
  | [] => inr None
  | game :: rest =>
      match same_player m game with
      | inl e => inl e
      | inr true => inr (Some (0, game))
      | inr false =>
          match ongoing_game m rest with
          | inr (Some (i, found)) => inr (Some (S i, found))
          | other => other
          end
      end
  end.

Definition white : Plain := Str "white".
Definition black : Plain := Str "black".

(** The branch that [if (parsedmsg.role == "student") ... else if
    (parsedmsg.role == "mentor") ... else ...] takes: the slot of the first
    test that is true, or none. *)
Definition role_slot (role : Val Json) : Exn + option Slot :=
  match loose_eq role (Str "student") with
  | inl e => inl e
  | inr true => inr (Some student_slot)
  | inr false =>
      match loose_eq role (Str "mentor") with
      | inl e => inl e
      | inr true => inr (Some mentor_slot)
      | inr false => inr None
      end
  end.

(** [colors], as the branch leaves it *)
Definition colors (branch : option Slot) : list Plain :=
  match branch with
  | Some student_slot => [black; white]
  | Some mentor_slot => [white; black]
  | None => []
  end.

(** [colors[i]] *)
Definition color_at (i : nat) (cs : list Plain) : Plain := nth i cs Undefined.

Definition studentSocket (branch : option Slot) (sock : string) : string :=
  match branch with Some student_slot => sock | _ => "" end.

Definition mentorSocket (branch : option Slot) (sock : string) : string :=
  match branch with Some mentor_slot => sock | _ => "" end.

(** [parsedmsg.role === "student" ? colors[0] :
     parsedmsg.role === "mentor" ? colors[1] : null] *)
Definition clientColor (role : Val Json) (cs : list Plain) : Plain :=
  if is_string role "student" then color_at 0 cs
  else if is_string role "mentor" then color_at 1 cs
  else Null.

Definition invalid_role_event : string :=
  "error : invalid value for msg.role. Requires student/mentor".

Definition role_complaint (branch : option Slot) : list Emission :=
  match branch with
  | Some _ => []
  | None => io_emit invalid_role_event NoPayload
  end.

(** The literal pushed on [ongoingGames] *)
Definition new_game (m : GameMsg) (branch : option Slot) (sock : string)
    : Game :=
  let cs := colors branch in
  mkGame
    (Some (mkParticipant (msg_student m)
             (Str (studentSocket branch sock)) (color_at 0 cs)))
    (Some (mkParticipant (msg_mentor m)
             (Str (mentorSocket branch sock)) (color_at 1 cs)))
    chess_new [].

Definition boardstate_with_color (c : Chess) (col : Plain) : Payload :=
  JSON_stringify [("boardState", Some (FText (fen c))); ("color", of_val col)].

Definition boardstate_only (c : Chess) : Payload :=
  JSON_stringify [("boardState", Some (FText (fen c)))].

(** The branch for a game that exists: the assignment of [socket.id], then
    [io.to(socket.id).emit] with [currentGame.boardState.fen()] and the
    colour read in the branch. *)
Definition rebind (sock : string) (i : nat) (currentGame : Game)
    (branch : option Slot) (w : World) : Outcome :=
  let send (w' : World) (color : Plain) : Outcome :=
    match boardState currentGame with
    | Engine c =>
        returns w'
          (io_to_emit w' sock "boardstate" (boardstate_with_color c color))
    | BoardHeld _ => throw w' [] TypeError
    end in
  match branch with
  | Some r =>
      match slot r currentGame with
      | None => throw w [] TypeError
      | Some p => send (mutate (set_slot_id r (Str sock)) (InGames i) w) (color p)
      end
  | None => send w Undefined
  end.

Definition on_newgame (sock : string) (msg : option GameMsg) (w : World)
    : Outcome :=
  match msg with
  | None => throw w [] BadMessage
  | Some m =>
      match ongoing_game m (ongoingGames w) with
      | inl e => throw w [] e
      | inr None =>
          match role_slot (msg_role m) with
          | inl e => throw w [] e
          | inr branch =>
              let currentGame := new_game m branch sock in
              let color := clientColor (msg_role m) (colors branch) in
              returns
                (mkWorld (ongoingGames w ++ [currentGame]) (sessions w)
                   (rooms w) (written w))
                (role_complaint branch
                 ++ io_emit "boardstate"
                      (boardstate_with_color chess_new color))
          end
      | inr (Some (i, currentGame)) =>
          match role_slot (msg_role m) with
          | inl e => throw w [] e
          | inr branch => rebind sock i currentGame branch w
          end
      end
  end.

(** ** createSession, joinSession *)

Definition dquote : string := String (ascii_of_nat 34) "".

Definition already_exists (sessionId : string) : string :=
  "Session " ++ dquote ++ sessionId ++ dquote ++ " already exists.".

Definition not_found (sessionId : string) : string :=
  "Session " ++ dquote ++ sessionId ++ dquote ++ " not found.".

Definition role_taken (role : string) : string :=
  "Role " ++ dquote ++ role ++ dquote ++ " is already taken.".

(** [role === "mentor" ? "white" : "black"] *)
Definition session_color (role : Val Json) : Plain :=
  if is_string role "mentor" then white else black.

(** [{ username, id: socket.id, color }] *)
Definition session_participant (m : SessionMsg) (sock : string)
    : Participant :=
  mkParticipant (msg_username m) (Str sock)
    (session_color (msg_sessionRole m)).

(** [{ boardState: chessState, pastStates: [], [role]: { ... } }], for the
    key [r] that [role] gives *)
Definition new_session (m : SessionMsg) (r : string) (sock : string) : Game :=
  set_property r (session_participant m sock) (mkGame None None chess_new []).

(** What [catch] sends *)
Definition invalid_payload (sock handler : string) : list Emission :=
  socket_emit sock "error" (Text ("Invalid " ++ handler ++ " payload")).

(** [sessions[sessionId]] is truthy for a session that is registered and
    for a name that [sessions] inherits. *)
Definition on_createSession (sock : string) (msg : option SessionMsg)
    (w : World) : Outcome :=
  match msg with
  | None => returns w (invalid_payload sock "createSession")
  | Some m =>
      let sessionId := msg_sessionId m in
      match own_lookup sessionId (sessions w) with
      | Some _ =>
          returns w (socket_emit sock "error" (Text (already_exists sessionId)))
      | None =>
          if inherited sessionId then
            returns w
              (socket_emit sock "error" (Text (already_exists sessionId)))
          else
            match key_of (msg_sessionRole m) with
            | inl _ => returns w (invalid_payload sock "createSession")
            | inr r =>
                let session := new_session m r sock in
                returns
                  (socket_join sock sessionId
                     (mkWorld (ongoingGames w)
                        (own_insert sessionId session (sessions w))
                        (rooms w) (written w)))
                  (socket_emit sock "sessionCreated"
                     (boardstate_with_color chess_new
                        (session_color (msg_sessionRole m))))
            end
      end
  end.

(** The two [safeEmit] calls of [joinSession], once both participants are
    there *)
Definition notify_both (io : Connected) (session : Game) (c : Chess)
    : list Emission :=
  match mentor session, student session with
  | Some pm, Some ps =>
      safeEmit io (id pm) "boardstate" (boardstate_with_color c (color pm))
      ++ safeEmit io (id ps) "boardstate" (boardstate_with_color c (color ps))
  | _, _ => []
  end.

(** [joinSession] on a session that is registered *)
Definition join_registered (io : Connected) (sock : string) (m : SessionMsg)
    (session : Game) (w : World) : Outcome :=
  match key_of (msg_sessionRole m) with
  | inl _ => returns w (invalid_payload sock "joinSession")
  | inr r =>
      if has_property r session then
        returns w (socket_emit sock "error" (Text (role_taken r)))
      else
        let p := session_participant m sock in
        let w' :=
          socket_join sock (msg_sessionId m)
            (mkWorld (ongoingGames w)
               (own_alter (set_property r p) (msg_sessionId m) (sessions w))
               (rooms w) (written w)) in
        let session' := set_property r p session in
        match boardState session' with
        | Engine c =>
            returns w'
              (socket_emit sock "sessionJoined"
                 (boardstate_with_color c (color p))
               ++ notify_both io session' c)
        | BoardHeld _ => returns w' (invalid_payload sock "joinSession")
        end
  end.

(** Whether [o[r]] is truthy for the object [o] that [sessions] inherits
    under the name [k]: [Object.prototype] itself under [__proto__], whose
    own [__proto__] is [null], and a function under any other name. *)
Definition inherited_has (w : World) (k r : string) : Exn + bool :=
  if existsb (fun kr => String.eqb (fst kr) k && String.eqb (snd kr) r)
       (written w)
  then inr true
  else if String.eqb k "__proto__" then
    inr (inherited r && negb (String.eqb r "__proto__"))
  else if inherited r then inr true
  else function_truthy javascript k r.

(** [o[r] = p] on that object. [Object.prototype] refuses a new prototype;
    a function keeps silent about a property that it does not take (the
    file is not in strict mode). *)
Definition inherited_write (w : World) (k r : string) : Exn + World :=
  let w' :=
    mkWorld (ongoingGames w) (sessions w) (rooms w) (written w ++ [(k, r)]) in
  if String.eqb k "__proto__" then
    if String.eqb r "__proto__" then inl TypeError else inr w'
  else inr (if function_keeps javascript k r then w' else w).

(** [joinSession] when [sessions[sessionId]] is what [sessions] inherits
    under that name: the object has no [boardState] with a [fen] method, so
    that the call after [socket.join] throws and [catch] answers. *)
Definition join_inherited (sock : string) (m : SessionMsg) (w : World)
    : Outcome :=
  let k := msg_sessionId m in
  match key_of (msg_sessionRole m) with
  | inl _ => returns w (invalid_payload sock "joinSession")
  | inr r =>
      match inherited_has w k r with
      | inl _ => returns w (invalid_payload sock "joinSession")
      | inr true => returns w (socket_emit sock "error" (Text (role_taken r)))
      | inr false =>
          match inherited_write w k r with
          | inl _ => returns w (invalid_payload sock "joinSession")
          | inr w' =>
              returns (socket_join sock k w')
                (invalid_payload sock "joinSession")
          end
      end
  end.

Definition on_joinSession (io : Connected) (sock : string)
    (msg : option SessionMsg) (w : World) : Outcome :=
  match msg with
  | None => returns w (invalid_payload sock "joinSession")
  | Some m =>
      match own_lookup (msg_sessionId m) (sessions w) with
      | Some session => join_registered io sock m session w
      | None =>
          if inherited (msg_sessionId m) then join_inherited sock m w
          else
            returns w
              (socket_emit sock "error" (Text (not_found (msg_sessionId m))))
      end
  end.

(** ** move, undo, setstate *)

(** The two [safeEmit] calls that end [move], [undo] and [setstate], with
    [currentGame.boardState.fen()] *)
Definition broadcast_boardstate (io : Connected) (g : Game) (c : Chess)
    : list Emission :=
  safeEmit io (slot_id (mentor g)) "boardstate" (boardstate_only c)
  ++ safeEmit io (slot_id (student g)) "boardstate" (boardstate_only c).

(** [currentState] is the object that [currentGame.boardState] holds: the
    engine changes it in place, and the assignment in the accepting branch
    stores the same object again. An object that is no engine has no
    [move]. *)
Definition on_move (io : Connected) (sock : string) (msg : option Obj)
    (w : World) : Outcome :=
  match msg with
  | None => throw w [] BadMessage
  | Some parsedmsg =>
      match findCurrentGameBySocket w sock with
      | None => returns w []
      | Some (r, currentGame) =>
          match boardState currentGame with
          | BoardHeld _ => throw w [] TypeError
          | Engine c =>
              let (currentState, move) :=
                chess_move c (field "from" parsedmsg) (field "to" parsedmsg) in
              returns (mutate (set_boardState (Engine currentState)) r w)
                (broadcast_boardstate io currentGame currentState)
          end
      end
  end.

Definition on_undo (io : Connected) (sock : string) (msg : option Obj)
    (w : World) : Outcome :=
  match msg with
  | None => throw w [] BadMessage
  | Some _ =>
      match findCurrentGameBySocket w sock with
      | None => returns w []
      | Some (r, currentGame) =>
          match boardState currentGame with
          | BoardHeld _ => throw w [] TypeError
          | Engine c =>
              let currentState := fst (chess_undo c) in
              returns (mutate (set_boardState (Engine currentState)) r w)
                (broadcast_boardstate io currentGame currentState)
          end
      end
  end.

Definition on_setstate (io : Connected) (sock : string) (msg : option Obj)
    (w : World) : Outcome :=
  match msg with
  | None => throw w [] BadMessage
  | Some parsedmsg =>
      let state := field "state" parsedmsg in
      match findCurrentGameBySocket w sock with
      | None => returns w []
      | Some (r, currentGame) =>
          match chess_load state with
          | None => throw w [] EngineError
          | Some c =>
              returns (mutate (set_boardState (Engine c)) r w)
                (broadcast_boardstate io currentGame c)
          end
      end
  end.

(** ** endgame *)

(** [game.student.username == parsedmsg.student &&
     game.mentor.username == parsedmsg.mentor] *)
Definition same_pair (m : EndMsg) (g : Game) : Exn + bool :=
  match student g with
  | None => inl TypeError
  | Some ps =>
      match loose_eq (username ps) (end_student m) with
      | inl e => inl e
      | inr false => inr false
      | inr true =>
          match mentor g with
          | None => inl TypeError
          | Some pm => loose_eq (username pm) (end_mentor m)
          end
      end
  end.

Definition reset_both (io : Connected) (g : Game) : list Emission :=
  safeEmit io (slot_id (mentor g)) "reset" NoPayload
  ++ safeEmit io (slot_id (student g)) "reset" NoPayload.

(** [ongoingGames.forEach] with [n] visits left, at position [index]. The
    callback counts its calls in [index], which is also the position that
    [forEach] visits; [splice(index, 1)] moves the later games one place
    down while the position goes one up, and a position past the end of the
    array is not visited. *)
Fixpoint endgame_forEach (io : Connected) (m : EndMsg) (n index : nat)
    (games : list Game) : list Game * list Emission * option Exn :=
  match n with
  | 0 => (games, [], None)
  | S n' =>
      match games !! index with
      | None => (games, [], None)
      | Some game =>
          match same_pair m game with
          | inl e => (games, [], Some e)
          | inr true =>
              let '(games', out, e) :=
                endgame_forEach io m n' (S index) (delete index games) in
              (games', (reset_both io game ++ out)%list, e)
          | inr false => endgame_forEach io m n' (S index) games
          end
      end
  end.

Definition on_endgame (io : Connected) (msg : option EndMsg) (w : World)
    : Outcome :=
  match msg with
  | None => throw w [] BadMessage
  | Some m =>
      let '(games, out, e) :=
        endgame_forEach io m (length (ongoingGames w)) 0 (ongoingGames w) in
      mkOutcome (mkWorld games (sessions w) (rooms w) (written w)) out e
  end.

(** ** The relayed events *)

Inductive Relay : Type :=
  | lastmove | addgrey | removegrey | mousexy | piecedrop | piecedrag
  | highlight.

Definition relay_name (k : Relay) : string :=
  match k with
  | lastmove => "lastmove"
  | addgrey => "addgrey"
  | removegrey => "removegrey"
  | mousexy => "mousexy"
  | piecedrop => "piecedrop"
  | piecedrag => "piecedrag"
  | highlight => "highlight"
  end.

(** The object that each handler stringifies *)
Definition relay_payload (k : Relay) (parsedmsg : Obj) : Payload :=
  let get name := (name, of_json (field name parsedmsg)) in
  JSON_stringify
    match k with
    | lastmove | highlight => [get "from"; get "to"]
    | addgrey => [get "to"]
    | mousexy => [get "x"; get "y"]
    | piecedrag => [get "piece"]
    | removegrey | piecedrop => []
    end.

(** [lastmove]: to both participants *)
Definition to_both (io : Connected) (g : Game) (ev : string) (p : Payload)
    : list Emission :=
  safeEmit io (slot_id (mentor g)) ev p ++ safeEmit io (slot_id (student g)) ev p.

(** The other six: [if (currentGame.mentor.id != clientSocket) ... else if
    (currentGame.student.id != clientSocket) ... else console.log(...)] *)
Definition to_other (io : Connected) (clientSocket : string) (g : Game)
    (ev : string) (p : Payload) : Exn + list Emission :=
  match mentor g with
  | None => inl TypeError
  | Some pm =>
      if loose_neq (id pm) (Str clientSocket) then
        inr (safeEmit io (slot_id (mentor g)) ev p)
      else
        match student g with
        | None => inl TypeError
        | Some ps =>
            if loose_neq (id ps) (Str clientSocket) then
              inr (safeEmit io (slot_id (student g)) ev p)
            else inr []
        end
  end.

Definition on_relay (k : Relay) (io : Connected) (sock : string)
    (msg : option Obj) (w : World) : Outcome :=
  match findCurrentGameBySocket w sock with
  | None => returns w []
  | Some (_, currentGame) =>
      match msg with
      | None => throw w [] BadMessage
      | Some parsedmsg =>
          let p := relay_payload k parsedmsg in
          match k with
          | lastmove => returns w (to_both io currentGame (relay_name k) p)
          | _ =>
              match to_other io sock currentGame (relay_name k) p with
              | inl e => throw w [] e
              | inr out => returns w out
              end
          end
      end
  end.

(** ** The server as a transition system *)

Inductive Event : Type :=
  | newgame (msg : option GameMsg)
  | createSession (msg : option SessionMsg)
  | joinSession (msg : option SessionMsg)
  | move (msg : option Obj)
  | endgame (msg : option EndMsg)
  | undo (msg : option Obj)
  | setstate (msg : option Obj)
  | relayed (k : Relay) (msg : option Obj).

(** One event from the socket [sock], while the sockets [io] are
    connected *)
Definition handle (io : Connected) (sock : string) (ev : Event) (w : World)
    : Outcome :=
  match ev with
  | newgame msg => on_newgame sock msg w
  | createSession msg => on_createSession sock msg w
  | joinSession msg => on_joinSession io sock msg w
  | move msg => on_move io sock msg w
  | endgame msg => on_endgame io msg w
  | undo msg => on_undo io sock msg w
  | setstate msg => on_setstate io sock msg w
  | relayed k msg => on_relay k io sock msg w
  end.

(** The states that the process can be in when every event it has handled
    is one of [allowed]: the stores empty at start, then whatever a handler
    leaves, also when it throws, as long as [Object.prototype] was pristine
    when the event arrived. *)
Inductive reachable_by (allowed : Event -> Prop) : World -> Prop :=
  | reachable_initial : reachable_by allowed initial
  | reachable_handle io sock ev w :
      reachable_by allowed w -> pristine w -> allowed ev ->
      reachable_by allowed (world (handle io sock ev w)).

Definition any_event (ev : Event) : Prop := True.

Definition reachable : World -> Prop := reachable_by any_event.

(** ** Vocabulary of the properties *)







(** Both participant objects are there. *)
Definition has_both (g : Game) : Prop :=
  is_Some (student g) /\ is_Some (mentor g).

(** [boardState] is an engine object. *)
Definition has_engine (g : Game) : Prop :=
  exists c, boardState g = Engine c.

(** The shape that the literal of [newgame] gives to a game *)
Definition paired_game (g : Game) : Prop := has_both g /\ has_engine g.



(** The events that act on the game of their sender *)
Definition game_event (ev : Event) : Prop :=
  match ev with
  | move _ | undo _ | setstate _ | relayed _ _ => True
  | _ => False
  end.

(** No game of [l] is of a player of the message: both tests of the loop
    answer false. *)
Definition no_game_of (m : GameMsg) (l : list Game) : Prop :=
  Forall (fun g => same_player m g = inr false) l.


(** What one event may do to the stored games, for a relation [R] between
    a game before and after: [endgame] only removes games; any other event
    leaves every game at its position, related by [R]; a named session stays
    under its id, related by [R]. *)
Definition evolves (R : Game -> Game -> Prop) (ev : Event) (w w' : World)
    : Prop :=
  match ev with
  | endgame _ => sublist (ongoingGames w') (ongoingGames w)
  | _ =>
      forall i g, ongoingGames w !! i = Some g ->
        exists g', ongoingGames w' !! i = Some g' /\ R g g'
  end
  /\ forall k s, own_lookup k (sessions w) = Some s ->
       exists s', own_lookup k (sessions w') = Some s' /\ R s s'.

(** What one event of the socket [sock] can make of the state [w]: nothing;
    a game pushed by [newgame] when no stored game is of either player; the
    connection id of a participant of a game set to [sock]; games removed by
    [endgame]; the position of one stored game replaced by an engine object;
    a session registered under an id that is free and not inherited, with
    the creator under the key of the role; a participant stored in a
    registered session under a key at which the session has nothing; or, in
    [joinSession] with an id that is inherited and not registered, a room
    joined and a property written outside both stores. *)
Inductive step (sock : string) (w : World) : Event -> World -> Prop :=
  | step_same ev : step sock w ev w
  | step_push m branch :
      no_game_of m (ongoingGames w) ->
      role_slot (msg_role m) = inr branch ->
      step sock w (newgame (Some m))
        (mkWorld (ongoingGames w ++ [new_game m branch sock]) (sessions w)
           (rooms w) (written w))
  | step_rebind m i g r p :
      ongoingGames w !! i = Some g -> slot r g = Some p ->
      step sock w (newgame (Some m))
        (mutate (set_slot_id r (Str sock)) (InGames i) w)
  | step_remove m games :
      sublist games (ongoingGames w) ->
      step sock w (endgame (Some m))
        (mkWorld games (sessions w) (rooms w) (written w))
  | step_board ev r g c :
      game_event ev -> deref w r = Some g ->
      step sock w ev (mutate (set_boardState (Engine c)) r w)
  | step_create m r :
      own_lookup (msg_sessionId m) (sessions w) = None ->
      inherited (msg_sessionId m) = false ->
      key_of (msg_sessionRole m) = inr r ->
      step sock w (createSession (Some m))
        (socket_join sock (msg_sessionId m)
           (mkWorld (ongoingGames w)
              (own_insert (msg_sessionId m) (new_session m r sock)
                 (sessions w))
              (rooms w) (written w)))
  | step_join m r session :
      own_lookup (msg_sessionId m) (sessions w) = Some session ->
      key_of (msg_sessionRole m) = inr r ->
      has_property r session = false ->
      step sock w (joinSession (Some m))
        (socket_join sock (msg_sessionId m)
           (mkWorld (ongoingGames w)
              (own_alter (set_property r (session_participant m sock))
                 (msg_sessionId m) (sessions w))
              (rooms w) (written w)))
  | step_inherited m rooms' written' :
      own_lookup (msg_sessionId m) (sessions w) = None ->
      inherited (msg_sessionId m) = true ->
      step sock w (joinSession (Some m))
        (mkWorld (ongoingGames w) (sessions w) rooms' written').

(** Every game of [ongoingGames] has [P] and every named session has
    [Q]. *)
Definition stores_satisfy (P Q : Game -> Prop) (w : World) : Prop :=
  Forall P (ongoingGames w) /\ Forall (fun kv => Q (snd kv)) (sessions w).

(** [pastStates] is the empty array. *)
Definition history_empty (g : Game) : Prop := pastStates g = States [].

(** [pastStates] holds no array with an element: it is the empty array, or
    the creator of a session whose role was the word [pastStates]. *)
Definition history_unused (g : Game) : Prop :=
  forall h, pastStates g = States h -> h = [].

(** [pastStates] is what it was. *)
Definition keeps_history (g g' : Game) : Prop := pastStates g' = pastStates g.

(** [g] with [pastStates] emptied, and the registry with every
    [pastStates] emptied *)
Definition forget (g : Game) : Game :=
  mkObject (student g) (mentor g) (boardState g) (States []) (others g).

Definition forget_entry (kv : string * Game) : string * Game :=
  (fst kv, forget (snd kv)).

Definition forget_world (w : World) : World :=
  mkWorld (forget <$> ongoingGames w) (forget_entry <$> sessions w)
    (rooms w) (written w).

Definition forget_outcome (o : Outcome) : Outcome :=
  mkOutcome (forget_world (world o)) (emitted o) (raised o).




(** The usernames of the student and of the mentor of a game *)
Definition names (g : Game) : option (Val Json) * option (Val Json) :=
  (username <$> student g, username <$> mentor g).

(** Two usernames that [==] tells apart *)
Definition differ (a b : option (Val Json)) : Prop :=
  forall x y, a = Some x -> b = Some y -> loose_eq x y = inr false.

(** Neither the students nor the mentors of two games have one name. *)
Definition strangers (n n' : option (Val Json) * option (Val Json)) : Prop :=
  differ (fst n) (fst n') /\ differ (snd n) (snd n').

Definition distinct_players (l : list Game) : Prop :=
  ForallOrdPairs strangers (names <$> l).

(** A name that is a string, [null] or [undefined] *)
Definition plain_name (v : Val Json) : Prop :=
  match v with Other _ => False | _ => True end.

(** The names of the participants of [g] are such names. *)
Definition plain_names (g : Game) : Prop :=
  forall r p, slot r g = Some p -> plain_name (username p).

(** Two such names that [==] takes for one: the same string, or [null] or
    [undefined] on both sides *)
Definition same_name (a b : Val Json) : Prop :=
  match a, b with
  | (Undefined | Null), (Undefined | Null) => True
  | Str x, Str y => x = y
  | _, _ => False
  end.

(** [g] is a game of the student and of the mentor of the message. *)
Definition of_pair (m : EndMsg) (g : Game) : Prop :=
  exists ps pm,
    student g = Some ps /\ mentor g = Some pm
    /\ same_name (username ps) (end_student m)
    /\ same_name (username pm) (end_mentor m).




(** What the loop of [endgame] makes of the array, read from its head: a
    game of the pair is removed with a [reset] to its participants, and the
    game that followed it is kept without being looked at. *)
Fixpoint endgame_scan (io : Connected) (m : EndMsg) (games : list Game)
    : list Game * list Emission * option Exn :=
  match games with
  | [] => ([], [], None)
  | game :: rest =>
      match same_pair m game with
      | inl e => (games, [], Some e)
      | inr true =>
          match rest with
          | [] => ([], reset_both io game, None)
          | next :: rest' =>
              let '(games', out, e) := endgame_scan io m rest' in
              (next :: games', (reset_both io game ++ out)%list, e)
          end
      | inr false =>
          let '(games', out, e) := endgame_scan io m rest in
          (game :: games', out, e)
      end
  end.



End Server.

(** ** A small engine and runtime to run the handlers on

    Positions are the moves played, the latest first; a move is accepted
    when both squares are given and differ; the text of a position is its
    moves joined by [/]. A parsed value is its JSON text; a value that is
    no string is equal to the string of the same text and to nothing else,
    and its text is its key. Of the functions that objects inherit the
    runtime knows [name], [length] and the calls of [Function.prototype]. *)
Module Toy.

Definition toy_move (c : list string) (f t : option string)
    : list string * bool :=
  match f, t with
  | Some a, Some b => if String.eqb a b then (c, false) else ((a ++ b) :: c, true)
  | _, _ => (c, false)
  end.

Definition toy_undo (c : list string) : list string * bool :=
  match c with
  | [] => ([], false)
  | _ :: rest => (rest, true)
  end.

Definition toy_load (state : option string) : option (list string) :=
  match state with
  | Some text => Some [text]
  | None => None
  end.

Definition toy_loose_eq (j : string) (v : Val string) : Exn + bool :=
  match v with
  | Str s => inr (String.eqb j s)
  | Other j' => inr (String.eqb j j')
  | _ => inr false
  end.

Definition one_of (names : list string) (r : string) : bool :=
  existsb (String.eqb r) names.

Definition toy_function_truthy (k r : string) : Exn + bool :=
  if one_of ["caller"; "arguments"] r then inl TypeError
  else if one_of ["name"; "apply"; "bind"; "call"] r then inr true
  else if String.eqb r "length" then
    inr (negb (one_of ["toString"; "valueOf"; "toLocaleString"] k))
  else inr false.

Definition toy_function_keeps (k r : string) : bool :=
  negb (one_of ["name"; "length"; "caller"; "arguments"] r).

Definition toy_runtime : Runtime string :=
  mkRuntime string toy_loose_eq (fun j => inr j) toy_function_truthy
    toy_function_keeps.

#[export] Instance engine : PositionEngine := {|
  Json := string;
  javascript := toy_runtime;
  Chess := list string;
  chess_new := [];
  chess_load := toy_load;
  fen := String.concat "/";
  chess_move := toy_move;
  chess_undo := toy_undo
|}.

(** *** Scenarios *)

Definition empty : World := initial.

Definition io : Connected := ["s1"; "m1"; "a"; "b"].

Definition alice_as_student : GameMsg :=
  mkGameMsg (Str "Alice") (Str "Bob") (Str "student").

Definition bob_as_mentor : GameMsg :=
  mkGameMsg (Str "Alice") (Str "Bob") (Str "mentor").

(** Alice has sent [newgame] from the socket [s1]. *)
Definition student_only : World :=
  world (handle io "s1" (newgame (Some alice_as_student)) initial).

Definition student_only_game : Game :=
  mkGame (Some (mkParticipant (Str "Alice") (Str "s1") black))
    (Some (mkParticipant (Str "Bob") (Str "") white)) [] [].

(** Then Bob has sent [newgame] from the socket [m1]. *)
Definition paired : World :=
  world (handle io "m1" (newgame (Some bob_as_mentor)) student_only).

Definition paired_game : Game :=
  mkGame (Some (mkParticipant (Str "Alice") (Str "s1") black))
    (Some (mkParticipant (Str "Bob") (Str "m1") white)) [] [].

Definition bob_creates : SessionMsg :=
  mkSessionMsg "abc" (Str "Bob") (Str "mentor").

Definition alice_joins : SessionMsg :=
  mkSessionMsg "abc" (Str "Alice") (Str "student").

Definition alice_creates : SessionMsg :=
  mkSessionMsg "abc" (Str "Alice") (Str "student").

(** Bob has sent [createSession] for [abc] from the socket [b]. *)
Definition created_by_mentor : World :=
  world (handle io "b" (createSession (Some bob_creates)) initial).

Definition created_by_mentor_session : Game :=
  mkGame None (Some (mkParticipant (Str "Bob") (Str "b") white)) [] [].

(** Alice has sent [createSession] for [abc] from the socket [a]. *)
Definition created_by_student : World :=
  world (handle io "a" (createSession (Some alice_creates)) initial).

Definition squares (f t : string) : Obj := [("from", f); ("to", t)].

Definition square (t : string) : Obj := [("to", t)].

Definition carol_as_mentor : GameMsg :=
  mkGameMsg (Str "Dave") (Str "Carol") (Str "mentor").

(** Alice and Bob are paired; then Carol has sent [newgame] from [a]. *)
Definition two_games : World :=
  world (handle io "a" (newgame (Some carol_as_mentor)) paired).

Definition carol_game : Game :=
  mkGame (Some (mkParticipant (Str "Dave") (Str "") white))
    (Some (mkParticipant (Str "Carol") (Str "a") black)) [] [].

Definition coach : GameMsg :=
  mkGameMsg (Str "Alice") (Str "Bob") (Str "coach").

Definition alice_and_bob : EndMsg := mkEndMsg (Str "Alice") (Str "Bob").







(** Alice is alone in her game, and the socket [b] has created a session
    whose id is the socket id [m1]. *)
Definition eve_creates : SessionMsg :=
  mkSessionMsg "m1" (Str "Eve") (Str "student").

Definition overheard : World :=
  world (handle io "b" (createSession (Some eve_creates)) student_only).

(** [joinSession] for an id that no session has and every object inherits,
    and [createSession] with the name of a field as the role *)
Definition alice_joins_toString : SessionMsg :=
  mkSessionMsg "toString" (Str "Alice") (Str "student").

Definition alice_creates_as_pastStates : SessionMsg :=
  mkSessionMsg "abc" (Str "Alice") (Str "pastStates").




Definition alice_creates_as_boardState : SessionMsg :=
  mkSessionMsg "abc" (Str "Alice") (Str "boardState").

(** Alice has created [abc] with the role [boardState] from the socket [a],
    and Bob has joined it as mentor from [b]. *)
Definition held_by_alice : World :=
  world (handle io "b" (joinSession (Some bob_creates))
           (world (handle io "a"
                     (createSession (Some alice_creates_as_boardState))
                     initial))).

End Toy.

(** * Properties *)

Section Properties.

Context {E : PositionEngine}.

(** ** References *)

Lemma find_first_Some {A} (p : A -> bool) (l : list A) i x :
  find_first p l = Some (i, x) -> l !! i = Some x /\ p x = true.
Proof.
  revert i. induction l as [|y l IH]; intros i; simpl; [discriminate|].
  destruct (p y) eqn:Hy.
  - intros [= <- <-]. auto.
  - destruct (find_first p l) as [[j z]|]; [|discriminate].
    intros [= <- <-]. apply IH. reflexivity.
Qed.

Lemma findCurrentGameBySocket_Some w sock r g :
  findCurrentGameBySocket w sock = Some (r, g) ->
  deref w r = Some g /\ bound_to sock g = true.
Proof.
  unfold findCurrentGameBySocket.
  destruct (find_first (bound_to sock) (ongoingGames w)) as [[i x]|] eqn:Hg.
  - intros [= <- <-]. apply find_first_Some in Hg. exact Hg.
  - destruct (find_first _ (sessions w)) as [[i [k x]]|] eqn:Hs; [|discriminate].
    intros [= <- <-]. apply find_first_Some in Hs as [Hl Hb].
    split; [|exact Hb]. simpl. rewrite Hl. reflexivity.
Qed.





(** ** safeEmit *)

Lemma safeEmit_bound io t ev p :
  t <> "" -> is_connected io t = true ->
  safeEmit io (Str t) ev p = [mkEmission (ToSocket t) ev p].
Proof.
  intros Ht Hc. unfold safeEmit. simpl.
  destruct (String.eqb_spec t "") as [->|_]; [contradiction|].
  simpl. rewrite Hc. reflexivity.
Qed.




(** The two calls that end [move], [undo] and [setstate], written out *)
Lemma broadcast_boardstate_eq io g c :
  broadcast_boardstate io g c =
    to_both io g "boardstate" (Object [("boardState", FText (fen c))]).
Proof. reflexivity. Qed.

(** ** The stored session under its key *)

Lemma own_lookup_own_alter_eq {V} (f : V -> V) k (l : list (string * V)) :
  own_lookup k (own_alter f k l) = f <$> own_lookup k l.
Proof.
  induction l as [|[k' v] l IH]; simpl; [reflexivity|].
  destruct (String.eqb k' k) eqn:Hk; simpl; rewrite Hk; [reflexivity|exact IH].
Qed.

Lemma own_lookup_own_alter_ne {V} (f : V -> V) k k' (l : list (string * V)) :
  k' <> k -> own_lookup k' (own_alter f k l) = own_lookup k' l.
Proof.
  intros Hne. induction l as [|[k0 v] l IH]; simpl; [reflexivity|].
  destruct (String.eqb_spec k0 k) as [->|Hk0]; simpl.
  - destruct (String.eqb_spec k k') as [->|_]; [contradiction|reflexivity].
  - destruct (String.eqb k0 k'); [reflexivity|exact IH].
Qed.

(** ** Move and undo *)




(** ** Named sessions *)

(** C3. [createSession] with a session id that is registered: the requester
    gets an [error] event, nothing else is sent, and the registry (the
    existing session with its position, history and participants, and the
    set of registered sessions) is what it was. *)
Theorem createSession_existing_id_untouched sock m w session :
  own_lookup (msg_sessionId m) (sessions w) = Some session ->
  let o := on_createSession sock (Some m) w in
  world o = w
  /\ emitted o = [mkEmission (ToSocket sock) "error"
                    (Text (already_exists (msg_sessionId m)))]
  /\ raised o = None.
Proof.
  intros Hl o. subst o. unfold on_createSession. rewrite Hl. auto.
Qed.

(** ** Relayed events *)


Lemma loose_neq_Str_false a b : loose_neq (Str a) (Str b) = false -> a = b.
Proof.
  unfold loose_neq. simpl. destruct (String.eqb_spec a b); [auto|discriminate].
Qed.






Lemma on_relay_world k io sock msg w : world (on_relay k io sock msg w) = w.
Proof.
  unfold on_relay. destruct (findCurrentGameBySocket w sock) as [[r g]|];
    [|reflexivity].
  destruct msg as [parsedmsg|]; [|reflexivity].
  destruct k; try reflexivity; destruct (to_other _ _ _ _ _); reflexivity.
Qed.




(** ** What a handler does to the stores *)

Lemma Forall_insert_index {V} (P : string * V -> Prop) n k v l :
  P (k, v) -> Forall P l -> Forall P (insert_index n k v l).
Proof.
  intros Hkv. induction l as [|[k' v'] l IH]; simpl; intros Hl.
  - constructor; [exact Hkv|constructor].
  - destruct (array_index k') as [i|]; [destruct (i <? n)%N|].
    + inversion Hl; subst. constructor; auto.
    + constructor; assumption.
    + constructor; assumption.
Qed.

Lemma Forall_own_insert {V} (P : string * V -> Prop) k v l :
  P (k, v) -> Forall P l -> Forall P (own_insert k v l).
Proof.
  intros Hkv Hl. unfold own_insert. destruct (array_index k).
  - apply Forall_insert_index; assumption.
  - apply Forall_app_2; [assumption|]. constructor; [exact Hkv|constructor].
Qed.

Lemma Forall_own_alter {V} (Q : V -> Prop) (f : V -> V) k l x :
  Forall (fun kv => Q (snd kv)) l ->
  own_lookup k l = Some x -> (Q x -> Q (f x)) ->
  Forall (fun kv => Q (snd kv)) (own_alter f k l).
Proof.
  intros Hl. induction Hl as [|[k' v] l Hv Hl IH]; simpl; [discriminate|].
  destruct (String.eqb k' k).
  - intros [= ->] Hf. constructor; [apply Hf, Hv|exact Hl].
  - intros Hx Hf. constructor; [exact Hv|exact (IH Hx Hf)].
Qed.

Lemma endgame_forEach_sublist io m n index games :
  sublist (fst (fst (endgame_forEach io m n index games))) games.
Proof.
  revert index games. induction n as [|n IH]; intros index games; simpl;
    [reflexivity|].
  destruct (games !! index) as [game|]; [|reflexivity].
  destruct (same_pair m game) as [e|[|]]; [reflexivity| |apply IH].
  specialize (IH (S index) (delete index games)).
  destruct (endgame_forEach io m n (S index) (delete index games))
    as [[games' out] e]. simpl in *.
  etransitivity; [exact IH|apply sublist_delete].
Qed.

Lemma sublist_Forall_keeps {A} (P : A -> Prop) (l1 l2 : list A) :
  sublist l1 l2 -> Forall P l2 -> Forall P l1.
Proof.
  intros Hs Hl. apply Forall_forall. intros x Hx.
  rewrite Forall_forall in Hl. apply Hl. exact (elem_of_sublist _ _ _ Hx Hs).
Qed.

Lemma ongoing_game_None_inv m l : ongoing_game m l = inr None -> no_game_of m l.
Proof.
  induction l as [|g l IH]; simpl; [constructor|].
  destruct (same_player m g) as [e|[|]] eqn:Hg; try discriminate.
  destruct (ongoing_game m l) as [e|[[i x]|]]; try discriminate.
  intros _. constructor; [exact Hg|apply IH; reflexivity].
Qed.

Lemma ongoing_game_Some_inv m l i g :
  ongoing_game m l = inr (Some (i, g)) ->
  l !! i = Some g /\ same_player m g = inr true /\ no_game_of m (take i l).
Proof.
  revert i. induction l as [|x l IH]; intros i; simpl; [discriminate|].
  destruct (same_player m x) as [e|[|]] eqn:Hx; try discriminate.
  - intros [= <- <-]. simpl. split; [reflexivity|]. split; [exact Hx|constructor].
  - destruct (ongoing_game m l) as [e|[[j y]|]]; try discriminate.
    intros [= <- <-]. destruct (IH j eq_refl) as (Hl & Hy & Hfirst).
    simpl. split; [exact Hl|]. split; [exact Hy|]. constructor; assumption.
Qed.

Lemma ongoing_game_found m l i g :
  l !! i = Some g -> same_player m g = inr true -> no_game_of m (take i l) ->
  ongoing_game m l = inr (Some (i, g)).
Proof.
  revert i. induction l as [|x l IH]; intros i; [discriminate|].
  destruct i as [|i]; simpl.
  - intros [= ->] -> _. reflexivity.
  - intros Hl Hg Hfirst. inversion Hfirst as [|? ? Hx Hrest]; subst.
    rewrite Hx, (IH i Hl Hg Hrest). reflexivity.
Qed.

Lemma ongoing_game_none m l : no_game_of m l -> ongoing_game m l = inr None.
Proof.
  induction 1 as [|g l Hg _ IH]; simpl; [reflexivity|]. rewrite Hg, IH.
  reflexivity.
Qed.

(** The branch of [newgame] for a game that exists changes at most the
    connection id of one participant of that game. *)
Lemma rebind_step sock m i g branch w :
  ongoingGames w !! i = Some g ->
  step sock w (newgame (Some m)) (world (rebind sock i g branch w)).
Proof.
  intros Hi. unfold rebind. destruct branch as [r|].
  - destruct (slot r g) as [p|] eqn:Hp; [|apply step_same].
    destruct (boardState g); simpl; exact (step_rebind _ _ _ _ _ _ _ Hi Hp).
  - destruct (boardState g); apply step_same.
Qed.

Lemma handle_step io sock ev w : step sock w ev (world (handle io sock ev w)).
Proof.
  destruct ev as [msg|msg|msg|msg|msg|msg|msg|k msg]; simpl.
  - (* newgame *)
    unfold on_newgame. destruct msg as [m|]; [|apply step_same].
    destruct (ongoing_game m (ongoingGames w)) as [e|[[i g]|]] eqn:Ho;
      [apply step_same| |].
    + destruct (role_slot (msg_role m)) as [e|branch]; [apply step_same|].
      apply rebind_step. exact (proj1 (ongoing_game_Some_inv _ _ _ _ Ho)).
    + destruct (role_slot (msg_role m)) as [e|branch] eqn:Hr; [apply step_same|].
      apply step_push; [exact (ongoing_game_None_inv _ _ Ho)|exact Hr].
  - (* createSession *)
    unfold on_createSession. destruct msg as [m|]; [|apply step_same].
    destruct (own_lookup _ _) eqn:Hfree; [apply step_same|].
    destruct (inherited _) eqn:Hin; [apply step_same|].
    destruct (key_of _) as [e|r] eqn:Hr; [apply step_same|].
    exact (step_create _ _ _ _ Hfree Hin Hr).
  - (* joinSession *)
    unfold on_joinSession. destruct msg as [m|]; [|apply step_same].
    destruct (own_lookup _ _) as [session|] eqn:Hl.
    + unfold join_registered.
      destruct (key_of _) as [e|r] eqn:Hr; [apply step_same|].
      destruct (has_property r session) eqn:Hfree; [apply step_same|].
      destruct (boardState _); exact (step_join _ _ _ _ _ Hl Hr Hfree).
    + destruct (inherited _) eqn:Hin; [|apply step_same].
      unfold join_inherited.
      destruct (key_of _) as [e|r]; [apply step_same|].
      destruct (inherited_has _ _ _) as [e|[|]]; try apply step_same.
      destruct (inherited_write _ _ _) as [e|w'] eqn:Hw'; [apply step_same|].
      assert (Hsame : ongoingGames w' = ongoingGames w
                      /\ sessions w' = sessions w).
      { unfold inherited_write in Hw'.
        destruct (String.eqb (msg_sessionId m) "__proto__").
        - destruct (String.eqb r "__proto__"); [discriminate|].
          injection Hw' as <-. auto.
        - injection Hw' as <-. destruct (function_keeps _ _ _); auto. }
      destruct Hsame as [Hg Hs]. unfold socket_join. simpl. rewrite Hg, Hs.
      exact (step_inherited _ _ _ _ _ Hl Hin).
  - (* move *)
    unfold on_move. destruct msg as [m|]; [|apply step_same].
    destruct (findCurrentGameBySocket w sock) as [[r g]|] eqn:Hfind;
      [|apply step_same].
    destruct (boardState g); [|apply step_same].
    destruct (chess_move _ _ _) as [c' ok]. simpl.
    exact (step_board sock w (move (Some m)) _ _ _ I
             (proj1 (findCurrentGameBySocket_Some _ _ _ _ Hfind))).
  - (* endgame *)
    unfold on_endgame. destruct msg as [m|]; [|apply step_same].
    pose proof (endgame_forEach_sublist io m (length (ongoingGames w)) 0
                  (ongoingGames w)) as Hsub.
    destruct (endgame_forEach _ _ _ _ _) as [[games out] e]. simpl in *.
    exact (step_remove _ _ _ _ Hsub).
  - (* undo *)
    unfold on_undo. destruct msg as [m|]; [|apply step_same].
    destruct (findCurrentGameBySocket w sock) as [[r g]|] eqn:Hfind;
      [|apply step_same].
    destruct (boardState g); [|apply step_same]. simpl.
    exact (step_board sock w (undo (Some m)) _ _ _ I
             (proj1 (findCurrentGameBySocket_Some _ _ _ _ Hfind))).
  - (* setstate *)
    unfold on_setstate. destruct msg as [m|]; [|apply step_same].
    destruct (findCurrentGameBySocket w sock) as [[r g]|] eqn:Hfind;
      [|apply step_same].
    destruct (chess_load _) as [c|]; [|apply step_same]. simpl.
    exact (step_board sock w (setstate (Some m)) _ _ _ I
             (proj1 (findCurrentGameBySocket_Some _ _ _ _ Hfind))).
  - (* relayed *)
    rewrite on_relay_world. apply step_same.
Qed.

Lemma pristine_unwritten w : written w = [] -> pristine w.
Proof. intros Hw r. rewrite Hw. intros []. Qed.

(** The step rule for a property [P] of the games of [ongoingGames] and a
    property [Q] of the named sessions *)
Section StoreInvariant.

Variables P Q : Game -> Prop.

Hypothesis P_board : forall g c, P g -> P (set_boardState (Engine c) g).
Hypothesis P_rebind : forall g r v, P g -> P (set_slot_id r v g).
Hypothesis P_new : forall m branch sock, P (new_game m branch sock).
Hypothesis Q_board : forall g c, Q g -> Q (set_boardState (Engine c) g).
Hypothesis Q_new : forall m r sock, Q (new_session m r sock).
Hypothesis Q_join :
  forall g r p, Q g -> has_property r g = false -> Q (set_property r p g).

Lemma step_satisfies sock ev w w' :
  step sock w ev w' -> stores_satisfy P Q w -> stores_satisfy P Q w'.
Proof.
  intros Hstep [Hg Hs].
  destruct Hstep as [ev|m branch Hnone Hr|m i g r p Hi Hp|m games Hsub
                     |ev r g c Hev Hd|m r Hfree Hin Hr|m r session Hl Hr Hfree
                     |m rooms' written' Hl Hin];
    split; simpl; try assumption.
  - apply Forall_app_2; [exact Hg|]. constructor; [apply P_new|constructor].
  - apply Forall_alter; [exact Hg|]. intros x _ Hx. apply P_rebind, Hx.
  - exact (sublist_Forall_keeps _ _ _ Hsub Hg).
  - destruct r as [i|i]; simpl; [|exact Hg].
    apply Forall_alter; [exact Hg|]. intros x _ Hx. apply P_board, Hx.
  - destruct r as [i|i]; simpl; [exact Hs|].
    apply Forall_alter; [exact Hs|]. intros [k x] _ Hx. simpl in *.
    apply Q_board, Hx.
  - apply Forall_own_insert; [apply Q_new|exact Hs].
  - apply (Forall_own_alter Q _ _ _ _ Hs Hl). intros Hq.
    apply Q_join; assumption.
Qed.

Lemma reachable_satisfies allowed w :
  reachable_by allowed w -> stores_satisfy P Q w.
Proof.
  induction 1 as [|io sock ev w _ IH _ _].
  - split; constructor.
  - exact (step_satisfies _ _ _ _ (handle_step io sock ev w) IH).
Qed.

End StoreInvariant.

Lemma own_lookup_alter_at {V} (f : V -> V) k i (l : list (string * V)) x :
  own_lookup k l = Some x ->
  exists x', own_lookup k (alter (fun kv => (fst kv, f (snd kv))) i l) = Some x'
             /\ (x' = x \/ x' = f x).
Proof.
  revert i. induction l as [|[k' v] l IH]; intros i; simpl; [discriminate|].
  destruct i as [|i]; simpl; destruct (String.eqb k' k) eqn:Hk.
  - intros [= ->]. eauto.
  - intros Hx. eauto.
  - intros [= ->]. eauto.
  - intros Hx. exact (IH i Hx).
Qed.

Lemma own_lookup_app {V} k (l l' : list (string * V)) x :
  own_lookup k l = Some x -> own_lookup k (l ++ l') = Some x.
Proof.
  induction l as [|[k' v] l IH]; simpl; [discriminate|].
  destruct (String.eqb k' k); [auto|exact IH].
Qed.

Lemma own_lookup_own_insert {V} k k0 (v : V) (l : list (string * V)) x :
  own_lookup k0 l = None -> own_lookup k l = Some x ->
  own_lookup k (own_insert k0 v l) = Some x.
Proof.
  intros Hfresh Hx.
  assert (Hne : String.eqb k0 k = false).
  { destruct (String.eqb_spec k0 k) as [->|]; [congruence|reflexivity]. }
  unfold own_insert. destruct (array_index k0) as [n|];
    [|apply own_lookup_app, Hx].
  revert Hfresh Hx. induction l as [|[k' v'] l IH]; simpl; [discriminate|].
  destruct (String.eqb k' k0) eqn:Hk0; [discriminate|]. intros Hfresh Hx.
  destruct (array_index k') as [i|]; [destruct (i <? n)%N|]; simpl;
    rewrite ?Hne; try exact Hx.
  destruct (String.eqb k' k); [exact Hx|exact (IH Hfresh Hx)].
Qed.

(** The step rule for a relation [R] between a game before and after an
    event *)
Section StoreEvolution.

Variable R : Game -> Game -> Prop.

Hypothesis R_refl : forall g, R g g.
Hypothesis R_board : forall g c, R g (set_boardState (Engine c) g).
Hypothesis R_rebind : forall g r v, R g (set_slot_id r v g).
Hypothesis R_join :
  forall g r p, has_property r g = false -> R g (set_property r p g).

Lemma games_altered (f : Game -> Game) j (l : list Game) :
  (forall x, R x (f x)) ->
  forall i g, l !! i = Some g -> exists g', alter f j l !! i = Some g' /\ R g g'.
Proof.
  intros Hf i g Hl. destruct (decide (j = i)) as [->|Hne].
  - rewrite list_lookup_alter_eq, Hl. simpl. eauto.
  - rewrite (list_lookup_alter_ne _ _ _ _ Hne). eauto.
Qed.

Lemma step_evolves sock ev w w' : step sock w ev w' -> evolves R ev w w'.
Proof.
  intros Hstep.
  assert (Hgames : forall l : list Game, forall i g, l !! i = Some g ->
            exists g', l !! i = Some g' /\ R g g') by eauto.
  assert (Hsess : forall l : list (string * Game), forall k s,
            own_lookup k l = Some s ->
            exists s', own_lookup k l = Some s' /\ R s s') by eauto.
  destruct Hstep as [ev|m branch Hnone Hr|m i g r p Hi Hp|m games Hsub
                     |ev r g c Hev Hd|m r Hfree Hin Hr|m r session Hl Hr Hfree
                     |m rooms' written' Hl Hin].
  - destruct ev; split; simpl; try apply Hgames; try apply Hsess. reflexivity.
  - split; simpl; [|apply Hsess]. intros i g Hl. exists g.
    split; [apply lookup_app_l_Some, Hl|apply R_refl].
  - split; simpl; [|apply Hsess]. apply games_altered. intros x. apply R_rebind.
  - split; simpl; [exact Hsub|apply Hsess].
  - assert (Hpos :
      (forall i x, ongoingGames w !! i = Some x ->
         exists x', ongoingGames (mutate (set_boardState (Engine c)) r w) !! i
                    = Some x' /\ R x x')
      /\ (forall k s, own_lookup k (sessions w) = Some s ->
            exists s', own_lookup k
                         (sessions (mutate (set_boardState (Engine c)) r w))
                       = Some s' /\ R s s')).
    { destruct r as [j|j]; simpl; split; try apply Hgames; try apply Hsess.
      - apply games_altered. intros x. apply R_board.
      - intros k s Hs.
        destruct (own_lookup_alter_at (set_boardState (Engine c)) k j _ _ Hs)
          as (s' & Hs' & [->| ->]); eauto. }
    destruct ev; try contradiction; exact Hpos.
  - split; simpl; [apply Hgames|]. intros k s Hs. exists s.
    split; [exact (own_lookup_own_insert _ _ _ _ _ Hfree Hs)|apply R_refl].
  - split; simpl; [apply Hgames|]. intros k s Hs.
    destruct (String.eqb_spec k (msg_sessionId m)) as [->|Hk].
    + rewrite own_lookup_own_alter_eq, Hl. simpl.
      rewrite Hl in Hs. injection Hs as <-. eexists. split; [reflexivity|].
      apply R_join, Hfree.
    + rewrite (own_lookup_own_alter_ne _ _ _ _ Hk). eauto.
  - split; simpl; [apply Hgames|apply Hsess].
Qed.

Lemma handle_evolves io sock ev w : evolves R ev w (world (handle io sock ev w)).
Proof. apply (step_evolves sock), handle_step. Qed.

End StoreEvolution.

(** ** newgame *)

Lemma paired_game_new m branch sock : paired_game (new_game m branch sock).
Proof. split; [split|]; simpl; eauto. exists chess_new. reflexivity. Qed.

Lemma paired_game_board g c :
  paired_game g -> paired_game (set_boardState (Engine c) g).
Proof. intros [Hb _]. split; [exact Hb|]. exists c. reflexivity. Qed.

Lemma paired_game_rebind g r v : paired_game g -> paired_game (set_slot_id r v g).
Proof.
  intros [[[ps Hs] [pm Hm]] [c Hc]]. unfold set_slot_id, paired_game, has_both,
    has_engine.
  destruct r; simpl; rewrite ?Hs, ?Hm; simpl; rewrite ?Hs, ?Hm, ?Hc; eauto.
Qed.

(** In a state that the process can reach, every game of [ongoingGames] has
    the shape of the literal of [newgame]. *)
Lemma reachable_paired_games allowed w :
  reachable_by allowed w -> Forall paired_game (ongoingGames w).
Proof.
  intros Hw.
  apply (reachable_satisfies paired_game (fun _ => True)) with (allowed := allowed);
    auto using paired_game_board, paired_game_rebind, paired_game_new.
Qed.

Lemma role_slot_string r : role_slot (Str (slot_name r)) = inr (Some r).
Proof. destruct r; reflexivity. Qed.

Lemma joined_In room seen l t : In t (joined room seen l) -> In (t, room) l.
Proof.
  revert seen. induction l as [|[s r] l IH]; intros seen; simpl; [auto|].
  destruct (String.eqb_spec r room) as [->|Hr]; simpl.
  - destruct (existsb (String.eqb s) seen); simpl.
    + intros H. right. exact (IH _ H).
    + intros [->|H]; [left; reflexivity|right; exact (IH _ H)].
  - intros H. right. exact (IH _ H).
Qed.

Lemma joined_nobody room seen l :
  (forall t, ~ In (t, room) l) -> joined room seen l = [].
Proof.
  intros Hno. destruct (joined room seen l) as [|t rest] eqn:Hj; [reflexivity|].
  exfalso. apply (Hno t), (joined_In room seen). rewrite Hj. left. reflexivity.
Qed.

(** [io.to(room).emit]: the socket of that id is addressed, every emission
    is the same event to a member of the room, and to that socket alone when
    no socket has joined a room of that name. *)
Lemma io_to_emit_members w room ev p :
  In (mkEmission (ToSocket room) ev p) (io_to_emit w room ev p)
  /\ (forall e, In e (io_to_emit w room ev p) ->
        exists t, e = mkEmission (ToSocket t) ev p
                  /\ (t = room \/ In (t, room) (rooms w)))
  /\ ((forall t, ~ In (t, room) (rooms w)) ->
      io_to_emit w room ev p = [mkEmission (ToSocket room) ev p]).
Proof.
  unfold io_to_emit, room_members. split; [left; reflexivity|]. split.
  - intros e [<-|He]; [eauto|].
    apply list_elem_of_In, list_elem_of_fmap in He as (t & -> & Ht).
    exists t. split; [reflexivity|]. right.
    apply (joined_In room [room]), list_elem_of_In, Ht.
  - intros Hno. rewrite (joined_nobody _ _ _ Hno). reflexivity.
Qed.

(** C6. A [newgame] request whose role is the string [student] or [mentor],
    in a state that the process can reach, when the loop over [ongoingGames]
    stops at a game [g] at position [i] (its test is true of [g], by the
    student's or by the mentor's name, and false of the games before it):
    the handler raises nothing, pushes no game and leaves the named sessions
    alone; in [g] the participant of that role gets the requester's socket
    id and keeps its name and colour, the rest of [g] and every other game
    are as they were; and [io.to(socket.id)] sends a [boardstate] whose
    payload is the text of the game's position and that participant's
    colour: the requester's socket is addressed, every emission is that
    event to the requester or to a socket that has joined a room named by
    the requester's id, and it is the only emission when there is none. *)
Theorem newgame_rebinds_existing_game sock m w i g r :
  reachable w ->
  ongoingGames w !! i = Some g ->
  no_game_of m (take i (ongoingGames w)) ->
  same_player m g = inr true ->
  msg_role m = Str (slot_name r) ->
  let o := on_newgame sock (Some m) w in
  exists p c,
    slot r g = Some p /\ boardState g = Engine c
    /\ raised o = None
    /\ length (ongoingGames (world o)) = length (ongoingGames w)
    /\ sessions (world o) = sessions w
    /\ ongoingGames (world o) !! i =
         Some (let me :=
                 Some (mkParticipant (username p) (Str sock) (color p)) in
               match r with
               | student_slot =>
                   mkObject me (mentor g) (Engine c) (pastStates g) (others g)
               | mentor_slot =>
                   mkObject (student g) me (Engine c) (pastStates g) (others g)
               end)
    /\ (forall j, j <> i -> ongoingGames (world o) !! j = ongoingGames w !! j)
    /\ (forall col, color p = Str col ->
        let answer :=
          Object [("boardState", FText (fen c)); ("color", FText col)] in
        In (mkEmission (ToSocket sock) "boardstate" answer) (emitted o)
        /\ (forall e, In e (emitted o) ->
              exists t, e = mkEmission (ToSocket t) "boardstate" answer
                        /\ (t = sock \/ In (t, sock) (rooms w)))
        /\ ((forall t, ~ In (t, sock) (rooms w)) ->
            emitted o = [mkEmission (ToSocket sock) "boardstate" answer])).
Proof.
  intros Hw Hi Hfirst Hg Hrole o.
  pose proof (reachable_paired_games _ w Hw) as Hpaired.
  rewrite Forall_lookup in Hpaired.
  destruct (Hpaired i g Hi) as [[[ps Hs] [pm Hm]] [c Hc]].
  assert (Hp : exists p, slot r g = Some p)
    by (destruct r; simpl; rewrite ?Hs, ?Hm; eauto).
  destruct Hp as [p Hp]. exists p, c.
  split; [exact Hp|]. split; [exact Hc|].
  assert (Ho : o = returns (mutate (set_slot_id r (Str sock)) (InGames i) w)
                     (io_to_emit w sock "boardstate"
                        (boardstate_with_color c (color p)))).
  { subst o. unfold on_newgame.
    rewrite (ongoing_game_found _ _ _ _ Hi Hg Hfirst), Hrole, role_slot_string.
    unfold rebind. rewrite Hp, Hc. reflexivity. }
  rewrite Ho. simpl. split; [reflexivity|]. split; [apply length_alter|].
  split; [reflexivity|]. split; [|split].
  - rewrite list_lookup_alter_eq, Hi. simpl. unfold set_slot_id. rewrite Hp.
    destruct g as [gs gm gb gp go]. simpl in Hc. subst gb.
    destruct r; reflexivity.
  - intros j Hj. apply list_lookup_alter_ne. auto.
  - intros col Hcol.
    assert (Hanswer : boardstate_with_color c (color p)
                      = Object [("boardState", FText (fen c));
                                ("color", FText col)])
      by (rewrite Hcol; reflexivity).
    rewrite Hanswer. apply io_to_emit_members.
Qed.

(** ** Colours *)


(** A key at which a session has nothing is the name of no participant that
    it holds, and the property written there leaves them alone. *)
Lemma set_property_slots r p g :
  has_property r g = false ->
  forall r' q, slot r' g = Some q -> slot r' (set_property r p g) = Some q.
Proof.
  unfold has_property, set_property. intros Hfree r' q Hq.
  destruct (String.eqb r "student").
  { destruct r'; simpl in *; [rewrite Hq in Hfree; discriminate|exact Hq]. }
  destruct (String.eqb r "mentor").
  { destruct r'; simpl in *; [exact Hq|rewrite Hq in Hfree; discriminate]. }
  destruct (String.eqb r "boardState"); [discriminate|].
  destruct (String.eqb r "pastStates"); [discriminate|].
  destruct r'; exact Hq.
Qed.











End Properties.

(** * The handlers on the toy engine *)

#[export] Instance toy_contract : EngineContract Toy.engine.
Proof.
  split.
  - intros c [a|] [b|]; simpl; try reflexivity.
    destruct (String.eqb a b); [reflexivity|discriminate].
  - intros [|x c]; simpl; [reflexivity|discriminate].
Qed.



Lemma createSession_existing_id_untouched_witness :
  own_lookup "abc" (sessions Toy.created_by_mentor)
    = Some Toy.created_by_mentor_session
  /\ world (on_createSession "a" (Some Toy.alice_creates) Toy.created_by_mentor)
     = Toy.created_by_mentor.
Proof.
  split; [reflexivity|].
  exact (proj1 (createSession_existing_id_untouched "a" Toy.alice_creates
                  Toy.created_by_mentor Toy.created_by_mentor_session eq_refl)).
Defined.





(** In a named session that holds its creator only, the test
    [currentGame.mentor.id != clientSocket] reads a property of
    [undefined]. *)
Example addgrey_in_single_participant_session_throws :
  raised (on_relay addgrey Toy.io "a" (Some (Toy.square "e4"))
            Toy.created_by_student) = Some TypeError
  /\ raised (on_relay addgrey Toy.io "b" (Some (Toy.square "e4"))
               Toy.created_by_mentor) = Some TypeError.
Proof. split; reflexivity. Qed.

Lemma reachable_student_only allowed :
  allowed (newgame (Some Toy.alice_as_student)) ->
  reachable_by allowed Toy.student_only.
Proof.
  intros Hok. apply reachable_handle;
    [apply reachable_initial|apply pristine_unwritten; reflexivity|exact Hok].
Qed.

Lemma reachable_paired allowed :
  allowed (newgame (Some Toy.alice_as_student)) ->
  allowed (newgame (Some Toy.bob_as_mentor)) ->
  reachable_by allowed Toy.paired.
Proof.
  intros Ha Hb. apply reachable_handle;
    [apply reachable_student_only, Ha|apply pristine_unwritten; reflexivity
    |exact Hb].
Qed.


Lemma reachable_overheard : reachable Toy.overheard.
Proof.
  apply reachable_handle;
    [apply reachable_student_only; exact I
    |apply pristine_unwritten; reflexivity|exact I].
Qed.

(** After Alice's [newgame] as student, Bob's [newgame] as mentor from
    another socket is answered with the colour white; the registry still
    holds one game, and in it Bob's participant has got the socket. *)
Lemma newgame_rebinds_existing_game_witness :
  let o := on_newgame "m1" (Some Toy.bob_as_mentor) Toy.student_only in
  emitted o = [mkEmission (ToSocket "m1") "boardstate"
                 (Object [("boardState", FText ""); ("color", FText "white")])]
  /\ length (ongoingGames (world o)) = 1
  /\ ongoingGames (world o) !! 0 = Some Toy.paired_game.
Proof.
  destruct (newgame_rebinds_existing_game "m1" Toy.bob_as_mentor
              Toy.student_only 0 Toy.student_only_game mentor_slot
              (reachable_student_only any_event I)
              eq_refl ltac:(constructor) eq_refl eq_refl)
    as (p & c & Hp & Hc & _ & Hlen & _ & Hgame & _ & Hout).
  injection Hp as <-. injection Hc as <-.
  destruct (Hout "white" eq_refl) as (_ & _ & Honly).
  split; [|split; [exact Hlen|exact Hgame]].
  apply Honly. intros t [].
Defined.



(** C4, at an id that no session has and that every object inherits:
    [sessions["toString"]] is a function, so that the handler does not
    answer that the session is not found; it writes [student] on the
    function, joins the room and answers with the error of its [catch]. *)
Lemma joinSession_inherited_id_is_not_missing :
  own_lookup "toString" (sessions Toy.empty) = None
  /\ on_joinSession Toy.io "a" (Some Toy.alice_joins_toString) Toy.empty
     = returns (mkWorld [] [] [("a", "toString")] [("toString", "student")])
         [mkEmission (ToSocket "a") "error"
            (Text "Invalid joinSession payload")].
Proof. split; reflexivity. Qed.

(** C9, when a socket has joined a session named by the requester's socket
    id: the answer of the branch for a game that exists, sent by
    [io.to(socket.id)], reaches that socket too. *)
Lemma newgame_answer_reaches_session_room :
  let o := on_newgame "m1" (Some Toy.bob_as_mentor) Toy.overheard in
  let answer :=
    Object [("boardState", FText ""); ("color", FText "white")] in
  emitted o = [mkEmission (ToSocket "m1") "boardstate" answer;
               mkEmission (ToSocket "b") "boardstate" answer]
  /\ receivers Toy.io (mkEmission (ToSocket "b") "boardstate" answer) = ["b"].
Proof. split; reflexivity. Qed.

(** C10, at a [createSession] whose role is the name of the field: the
    computed key of the literal replaces the array by the creator. *)
Lemma createSession_role_pastStates_replaces_the_array :
  sessions (world (on_createSession "a" (Some Toy.alice_creates_as_pastStates)
                     Toy.empty))
  = [("abc",
      mkObject None None (Engine chess_new)
        (PastHeld (mkParticipant (Str "Alice") (Str "a") black)) [])].
Proof. reflexivity. Qed.

(** * Further properties of the handlers *)

Section Further.

Context {E : PositionEngine}.

Local Open Scope list_scope.

(** ** safeEmit and findCurrentGameBySocket *)

(** X1. [safeEmit] sends at most once, and only to a live socket: when the
    id is a non-empty string naming a connected socket, the one emission
    reaches that socket and no other; for any other id ([undefined], [null],
    the empty string, a socket that is gone) nothing is emitted. *)
Theorem safeEmit_at_most_once io v ev p :
  (forall t, v = Str t -> t <> "" -> is_connected io t = true ->
     safeEmit io v ev p = [mkEmission (ToSocket t) ev p]
     /\ receivers io (mkEmission (ToSocket t) ev p) = [t])
  /\ ((forall t, v = Str t -> t = "" \/ is_connected io t = false) ->
      safeEmit io v ev p = []).
Proof.
  split.
  - intros t -> Ht Hc. split; [exact (safeEmit_bound _ _ _ _ Ht Hc)|].
    unfold receivers. simpl. rewrite Hc. reflexivity.
  - intros Hnot. unfold safeEmit. destruct v as [| |t|[]]; try reflexivity.
    simpl. destruct (Hnot t eq_refl) as [->|Hc]; [reflexivity|].
    rewrite Hc. destruct (negb (negb _)); reflexivity.
Qed.







(** ** The array of games *)

Lemma ForallOrdPairs_snoc {A} (R : A -> A -> Prop) (l : list A) y :
  ForallOrdPairs R l -> Forall (fun x => R x y) l -> ForallOrdPairs R (l ++ [y]).
Proof.
  induction 1 as [|x l Hx Hl IH]; simpl; intros Hy.
  - constructor; constructor.
  - inversion Hy; subst. constructor; [|apply IH; assumption].
    apply Forall_app_2; [exact Hx|]. constructor; [assumption|constructor].
Qed.

Lemma ForallOrdPairs_sublist {A} (R : A -> A -> Prop) (l1 l2 : list A) :
  sublist l1 l2 -> ForallOrdPairs R l2 -> ForallOrdPairs R l1.
Proof.
  induction 1 as [|x l1 l2 Hs IH|x l1 l2 Hs IH]; intros H2.
  - constructor.
  - inversion H2; subst. constructor; [|apply IH; assumption].
    exact (sublist_Forall_keeps _ _ _ Hs H1).
  - inversion H2; subst. apply IH. assumption.
Qed.

Lemma ForallOrdPairs_lookup {A} (R : A -> A -> Prop) (l : list A) i j x y :
  ForallOrdPairs R l -> i < j -> l !! i = Some x -> l !! j = Some y -> R x y.
Proof.
  intros Hl. revert i j. induction Hl as [|z l Hz Hl IH]; intros i j Hij;
    [discriminate|].
  destruct j as [|j]; [lia|]. destruct i as [|i]; simpl.
  - intros [= <-] Hy. rewrite Forall_lookup in Hz. exact (Hz j y Hy).
  - apply IH. lia.
Qed.

Lemma names_alter (f : Game -> Game) i (l : list Game) :
  (forall g, names (f g) = names g) -> names <$> alter f i l = names <$> l.
Proof.
  intros Hf. rewrite (list_fmap_alter names f (fun n => n)).
  - apply list_alter_id. reflexivity.
  - apply Forall_true. exact Hf.
Qed.

Lemma names_set_slot_id r v g : names (set_slot_id r v g) = names g.
Proof.
  destruct g as [[ps|] [pm|] c h o], r; reflexivity.
Qed.

Lemma same_player_false m g branch sock :
  same_player m g = inr false ->
  strangers (names g) (names (new_game m branch sock)).
Proof.
  unfold same_player, strangers, differ, names.
  destruct (student g) as [ps|]; [|discriminate].
  destruct (loose_eq (username ps) (msg_student m)) as [e|[|]] eqn:Hs;
    try discriminate.
  destruct (mentor g) as [pm|]; [|discriminate]. intros Hm. simpl.
  split; intros x y [= <-] [= <-]; assumption.
Qed.

Lemma reachable_distinct_players w :
  reachable w -> distinct_players (ongoingGames w).
Proof.
  induction 1 as [|io sock ev w _ IH _ _]; [constructor|].
  unfold distinct_players in *.
  destruct (handle_step io sock ev w)
    as [ev|m branch Hnone Hr|m i g r p Hi Hp|m games Hsub
        |ev r g c Hev Hd|m r Hfree Hin Hr|m r session Hl Hr Hfree
        |m rooms' written' Hl Hin]; simpl; try exact IH.
  - rewrite fmap_app. apply ForallOrdPairs_snoc; [exact IH|].
    apply Forall_fmap. unfold no_game_of in Hnone.
    eapply Forall_impl; [exact Hnone|]. intros g Hg. simpl.
    apply same_player_false, Hg.
  - rewrite names_alter; [exact IH|]. intros x. apply names_set_slot_id.
  - apply (ForallOrdPairs_sublist _ _ _ (fmap_sublist names _ _ Hsub) IH).
  - destruct r as [i|i]; simpl; [|exact IH].
    rewrite names_alter; [exact IH|]. reflexivity.
Qed.

(** X3. In every registry that the process can reach, two games of
    [ongoingGames] never have students of one name, nor mentors of one name
    (by [==]): [newgame] pushes a game only when no stored game has the
    student's or the mentor's name, and no event changes a name. *)
Theorem ongoing_games_have_distinct_players w i j gi gj :
  reachable w -> i < j ->
  ongoingGames w !! i = Some gi -> ongoingGames w !! j = Some gj ->
  strangers (names gi) (names gj).
Proof.
  intros Hw Hij Hi Hj.
  apply (ForallOrdPairs_lookup strangers (names <$> ongoingGames w) i j);
    [exact (reachable_distinct_players w Hw)|exact Hij| |];
    rewrite list_lookup_fmap; [rewrite Hi|rewrite Hj]; reflexivity.
Qed.

(** ** endgame *)

Lemma endgame_forEach_past_end io m n index games :
  length games <= index -> endgame_forEach io m n index games = (games, [], None).
Proof.
  intros Hlen. destruct n as [|n]; simpl; [reflexivity|].
  rewrite (lookup_ge_None_2 _ _ Hlen). reflexivity.
Qed.

Lemma endgame_forEach_scan io m n pre suf :
  length suf <= n ->
  endgame_forEach io m n (length pre) (pre ++ suf) =
    let '(games, out, e) := endgame_scan io m suf in
    ((pre ++ games)%list, out, e).
Proof.
  revert pre suf. induction n as [|n IH]; intros pre suf Hn.
  - destruct suf; [reflexivity|simpl in Hn; lia].
  - destruct suf as [|game rest]; simpl.
    + rewrite lookup_ge_None_2; [reflexivity|]. rewrite length_app. simpl. lia.
    + rewrite list_lookup_middle by reflexivity.
      destruct (same_pair m game) as [e|[|]]; [reflexivity| |].
      * rewrite delete_middle. destruct rest as [|next rest'].
        -- rewrite endgame_forEach_past_end by (rewrite length_app; simpl; lia).
           rewrite !app_nil_r. reflexivity.
        -- specialize (IH (pre ++ [next]) rest').
           rewrite length_app in IH. simpl in IH.
           replace (length pre + 1) with (S (length pre)) in IH by lia.
           rewrite <- app_assoc in IH. simpl in IH. rewrite IH.
           ++ destruct (endgame_scan io m rest') as [[games out] e].
              rewrite <- app_assoc. reflexivity.
           ++ simpl in Hn. lia.
      * specialize (IH (pre ++ [game]) rest).
        rewrite length_app in IH. simpl in IH.
        replace (length pre + 1) with (S (length pre)) in IH by lia.
        rewrite <- app_assoc in IH. simpl in IH. rewrite IH.
        -- destruct (endgame_scan io m rest) as [[games out] e].
           rewrite <- app_assoc. reflexivity.
        -- simpl in Hn. lia.
Qed.

(** X4. The loop of [endgame], which removes from the array it is walking:
    [forEach] with [splice(index, 1)] does what a walk from the head does
    that removes a game of the pair with a [reset] to its participants and
    then steps over the game that followed it, whatever that game is. *)
Theorem endgame_steps_over_the_next_game io m w :
  on_endgame io (Some m) w =
    let '(games, out, e) := endgame_scan io m (ongoingGames w) in
    mkOutcome (mkWorld games (sessions w) (rooms w) (written w)) out e.
Proof.
  unfold on_endgame.
  rewrite (endgame_forEach_scan io m _ [] (ongoingGames w)) by reflexivity.
  destruct (endgame_scan io m (ongoingGames w)) as [[games out] e].
  reflexivity.
Qed.

Lemma loose_eq_plain a b :
  plain_name a -> plain_name b ->
  (loose_eq a b = inr true /\ same_name a b)
  \/ (loose_eq a b = inr false /\ ~ same_name a b).
Proof.
  destruct a as [| |x|j], b as [| |y|j']; simpl; try contradiction; intros _ _;
    try (left; split; [reflexivity|exact I]);
    try (right; split; [reflexivity|intros []]).
  destruct (String.eqb_spec x y) as [->|Hne]; [left|right]; auto.
Qed.

Lemma same_name_meet a a' b :
  same_name a b -> same_name a' b -> same_name a a'.
Proof.
  destruct a as [| |x|j], a' as [| |x'|j'], b as [| |y|j'']; simpl;
    try contradiction; auto.
  intros -> ->. reflexivity.
Qed.

(** With names that are strings, [null] or [undefined], the test of
    [endgame] answers, and it is true of the games of the pair. *)
Lemma same_pair_plain m g :
  has_both g -> plain_names g ->
  plain_name (end_student m) -> plain_name (end_mentor m) ->
  (same_pair m g = inr true /\ of_pair m g)
  \/ (same_pair m g = inr false /\ ~ of_pair m g).
Proof.
  intros [[ps Hs] [pm Hm]] Hplain Hms Hmm. unfold same_pair, of_pair.
  rewrite Hs, Hm.
  destruct (loose_eq_plain (username ps) (end_student m)
              (Hplain student_slot ps Hs) Hms) as [[-> Hsn]|[-> Hsn]].
  - destruct (loose_eq_plain (username pm) (end_mentor m)
                (Hplain mentor_slot pm Hm) Hmm) as [[-> Hmn]|[-> Hmn]].
    + left. split; [reflexivity|]. exists ps, pm. auto.
    + right. split; [reflexivity|]. intros (ps' & pm' & [= <-] & [= <-] & _ & H).
      contradiction.
  - right. split; [reflexivity|]. intros (ps' & pm' & [= <-] & _ & H & _).
    contradiction.
Qed.

Lemma of_pair_not_strangers m g g' :
  plain_names g -> plain_names g' ->
  of_pair m g -> of_pair m g' -> ~ strangers (names g) (names g').
Proof.
  intros Hplain Hplain' (ps & pm & Hs & Hm & Hsn & _)
    (ps' & pm' & Hs' & Hm' & Hsn' & _) [Hdiff _].
  unfold names, differ in Hdiff. rewrite Hs, Hs' in Hdiff. simpl in Hdiff.
  specialize (Hdiff _ _ eq_refl eq_refl).
  destruct (loose_eq_plain (username ps) (username ps')
              (Hplain student_slot ps Hs) (Hplain' student_slot ps' Hs'))
    as [[Heq _]|[_ Hne]]; [congruence|].
  apply Hne. exact (same_name_meet _ _ _ Hsn Hsn').
Qed.

Lemma endgame_scan_none io m l :
  Forall (fun g => same_pair m g = inr false) l ->
  endgame_scan io m l = (l, [], None).
Proof.
  induction 1 as [|g l Hg _ IH]; simpl; [reflexivity|].
  rewrite Hg, IH. reflexivity.
Qed.

Lemma endgame_scan_one io m pre g suf :
  Forall (fun x => same_pair m x = inr false) pre ->
  same_pair m g = inr true ->
  Forall (fun x => same_pair m x = inr false) suf ->
  endgame_scan io m (pre ++ g :: suf)
  = ((pre ++ suf)%list, reset_both io g, None).
Proof.
  intros Hpre Hg Hsuf. induction Hpre as [|x pre Hx _ IH]; simpl.
  - rewrite Hg. destruct suf as [|next suf']; [reflexivity|].
    inversion Hsuf; subst. rewrite (endgame_scan_none io m suf') by assumption.
    rewrite app_nil_r. reflexivity.
  - rewrite Hx, IH. reflexivity.
Qed.

(** X5. [endgame] in a state that the process can reach, with a message
    that parses, when the names of the message and of the stored games are
    strings, [null] or [undefined]: it raises nothing and leaves the named
    sessions alone; when a stored game has the student and the mentor of the
    message, that game and no other is removed and the only emissions are
    the [reset] to its mentor and to its student (those with a live
    connection); when no stored game has them, nothing changes and nothing
    is emitted. *)
Theorem endgame_removes_the_game_of_the_pair io m w :
  reachable w ->
  plain_name (end_student m) -> plain_name (end_mentor m) ->
  Forall plain_names (ongoingGames w) ->
  let o := on_endgame io (Some m) w in
  raised o = None
  /\ sessions (world o) = sessions w
  /\ (forall i g,
        ongoingGames w !! i = Some g -> of_pair m g ->
        ongoingGames (world o) = delete i (ongoingGames w)
        /\ emitted o =
             safeEmit io (slot_id (mentor g)) "reset" NoPayload
             ++ safeEmit io (slot_id (student g)) "reset" NoPayload)
  /\ ((forall g, In g (ongoingGames w) -> ~ of_pair m g) ->
      world o = w /\ emitted o = []).
Proof.
  intros Hw Hms Hmm Hplain o.
  pose proof (reachable_paired_games _ w Hw) as Hpaired.
  pose proof (reachable_distinct_players w Hw) as Hdist.
  assert (Htest : forall j x, ongoingGames w !! j = Some x ->
            (same_pair m x = inr true /\ of_pair m x)
            \/ (same_pair m x = inr false /\ ~ of_pair m x)).
  { intros j x Hj. apply same_pair_plain; try assumption.
    - exact (proj1 (Forall_lookup_1 _ _ _ _ Hpaired Hj)).
    - exact (Forall_lookup_1 _ _ _ _ Hplain Hj). }
  assert (Hother : forall i g, ongoingGames w !! i = Some g -> of_pair m g ->
            forall j x, j <> i -> ongoingGames w !! j = Some x ->
              same_pair m x = inr false).
  { intros i g Hi Hg j x Hji Hj.
    destruct (Htest j x Hj) as [[_ Hx]|[Hx _]]; [|exact Hx].
    exfalso. assert (Hcases : i < j \/ j < i) by lia.
    assert (Hn : forall k y, ongoingGames w !! k = Some y ->
                   (names <$> ongoingGames w) !! k = Some (names y))
      by (intros k y Hk; rewrite list_lookup_fmap, Hk; reflexivity).
    pose proof (Forall_lookup_1 _ _ _ _ Hplain Hi) as Hpi.
    pose proof (Forall_lookup_1 _ _ _ _ Hplain Hj) as Hpj.
    destruct Hcases as [Hij|Hij].
    - apply (of_pair_not_strangers m g x Hpi Hpj Hg Hx).
      exact (ForallOrdPairs_lookup _ _ _ _ _ _ Hdist Hij (Hn _ _ Hi) (Hn _ _ Hj)).
    - apply (of_pair_not_strangers m x g Hpj Hpi Hx Hg).
      exact (ForallOrdPairs_lookup _ _ _ _ _ _ Hdist Hij (Hn _ _ Hj) (Hn _ _ Hi)). }
  assert (Ho : o = let '(games, out, e) := endgame_scan io m (ongoingGames w) in
                   mkOutcome (mkWorld games (sessions w) (rooms w) (written w))
                     out e).
  { subst o. unfold on_endgame.
    rewrite (endgame_forEach_scan io m _ [] (ongoingGames w)) by reflexivity.
    destruct (endgame_scan io m (ongoingGames w)) as [[games out] e].
    reflexivity. }
  assert (Hcases : (exists i g, ongoingGames w !! i = Some g /\ of_pair m g)
                   \/ Forall (fun g => same_pair m g = inr false)
                        (ongoingGames w)).
  { clear Ho Hother Hdist Hpaired Hplain.
    induction (ongoingGames w) as [|x l IH].
    - right. constructor.
    - destruct (Htest 0 x eq_refl) as [[_ Hb]|[Hb _]].
      + left. exists 0, x. auto.
      + destruct IH as [(i & g & Hi & Hg)|Hall].
        * intros j y Hj. exact (Htest (S j) y Hj).
        * left. exists (S i), g. auto.
        * right. constructor; assumption. }
  destruct Hcases as [(i & g & Hi & Hg)|Hall].
  - assert (Htrue : same_pair m g = inr true).
    { destruct (Htest i g Hi) as [[H _]|[_ H]]; [exact H|contradiction]. }
    assert (Hscan : endgame_scan io m (ongoingGames w)
                    = (delete i (ongoingGames w), reset_both io g, None)).
    { rewrite <- (take_drop_middle _ _ _ Hi) at 1.
      rewrite (endgame_scan_one io m _ g _); [| |exact Htrue|].
      - f_equal. f_equal. rewrite <- (take_drop_middle _ _ _ Hi) at 3.
        assert (Hlen : length (take i (ongoingGames w)) = i).
        { apply length_take_le. apply lookup_lt_Some in Hi. lia. }
        rewrite <- Hlen at 3. rewrite delete_middle. reflexivity.
      - apply Forall_lookup. intros j x Hj.
        apply lookup_take_Some in Hj as [Hj Hlt].
        apply (Hother i g Hi Hg j x); [lia|exact Hj].
      - apply Forall_lookup. intros j x Hj. rewrite lookup_drop in Hj.
        apply (Hother i g Hi Hg (S i + j) x); [lia|exact Hj]. }
    rewrite Ho, Hscan. simpl.
    split; [reflexivity|]. split; [reflexivity|]. split.
    + intros i' g' Hi' Hg'.
      destruct (decide (i' = i)) as [->|Hne].
      * rewrite Hi in Hi'. injection Hi' as <-. auto.
      * destruct (Htest i' g' Hi') as [[_ _]|[_ Hno]]; [|contradiction].
        pose proof (Hother i' g' Hi' Hg' i g ltac:(congruence) Hi) as Hfalse.
        congruence.
    + intros Hno. exfalso. apply (Hno g); [|exact Hg].
      apply list_elem_of_In, list_elem_of_lookup. eauto.
  - rewrite Ho, (endgame_scan_none io m _ Hall). simpl.
    split; [reflexivity|]. split; [reflexivity|]. split.
    + intros i g Hi Hg. rewrite Forall_lookup in Hall.
      destruct (Htest i g Hi) as [[Htrue _]|[_ Hno]]; [|contradiction].
      rewrite (Hall i g Hi) in Htrue. discriminate.
    + intros _. split; [destruct w|]; reflexivity.
Qed.

(** ** The events of a game *)








(** ** The named sessions *)

Lemma set_property_history r p g :
  has_property r g = false -> pastStates (set_property r p g) = pastStates g.
Proof.
  unfold has_property, set_property. intros Hfree.
  destruct (String.eqb r "student"); [reflexivity|].
  destruct (String.eqb r "mentor"); [reflexivity|].
  destruct (String.eqb r "boardState"); [discriminate|].
  destruct (String.eqb r "pastStates"); [discriminate|]. reflexivity.
Qed.

(** X9. A named session is there for good, and so are its participants: no
    event unregisters a session or puts another under its id, and a
    participant that is stored stays as it is, with its name, its socket id
    and its colour (no event rebinds a connection in a named session); its
    [pastStates] stays too. *)
Theorem named_sessions_persist io sock ev w k s :
  own_lookup k (sessions w) = Some s ->
  exists s',
    own_lookup k (sessions (world (handle io sock ev w))) = Some s'
    /\ (forall r p, slot r s = Some p -> slot r s' = Some p)
    /\ pastStates s' = pastStates s.
Proof.
  intros Hs.
  set (stays := fun g g' : Game =>
         (forall r p, slot r g = Some p -> slot r g' = Some p)
         /\ pastStates g' = pastStates g).
  assert (Hrefl : forall g, stays g g) by (intros g; split; auto).
  assert (Hboard : forall g c, stays g (set_boardState (Engine c) g)).
  { intros g c. split; [|reflexivity]. intros r p H. destruct r; exact H. }
  assert (Hjoin : forall g r p, has_property r g = false ->
            stays g (set_property r p g)).
  { intros g r p Hfree. split; [apply set_property_slots, Hfree|].
    apply set_property_history, Hfree. }
  destruct (handle_step io sock ev w)
    as [ev|m branch Hnone Hr|m i g r p Hi Hp|m games Hsub
        |ev r g c Hev Hd|m r Hfree Hin Hr|m r session Hl Hr Hfree
        |m rooms' written' Hl Hin]; simpl;
    try (exists s; split; [exact Hs|apply Hrefl]).
  - destruct r as [i|i]; simpl; [exists s; split; [exact Hs|apply Hrefl]|].
    destruct (own_lookup_alter_at (set_boardState (Engine c)) k i _ _ Hs)
      as (s' & Hs' & [->| ->]); eexists; (split; [exact Hs'|]); auto.
  - exists s. split; [|apply Hrefl].
    exact (own_lookup_own_insert _ _ _ _ _ Hfree Hs).
  - destruct (String.eqb_spec k (msg_sessionId m)) as [->|Hk].
    + rewrite own_lookup_own_alter_eq, Hl. simpl. eexists.
      split; [reflexivity|]. rewrite Hl in Hs. injection Hs as <-.
      apply Hjoin, Hfree.
    + rewrite (own_lookup_own_alter_ne _ _ _ _ Hk). exists s.
      split; [exact Hs|apply Hrefl].
Qed.






(** ** Edge cases of newgame and of the relayed events *)

Lemma find_first_snoc_false {A} (p : A -> bool) (l : list A) x :
  p x = false -> find_first p (l ++ [x]) = find_first p l.
Proof.
  intros Hx. induction l as [|y l IH]; simpl; [rewrite Hx; reflexivity|].
  rewrite IH. reflexivity.
Qed.

Lemma role_slot_None role :
  role_slot role = inr None ->
  is_string role "student" = false /\ is_string role "mentor" = false.
Proof.
  unfold role_slot. destruct role as [| |s|j]; simpl; auto.
  destruct (String.eqb s "student"); [discriminate|].
  destruct (String.eqb s "mentor"); [discriminate|]. auto.
Qed.

(** X11. [newgame] with a role that is neither [student] nor [mentor], when
    no stored game is of either player: the handler complains to every
    socket and goes on: it pushes a game whose two participants have the
    empty connection id and no colour, and sends every socket a [boardstate]
    whose colour is [null]. The requester is bound to nothing: what
    [findCurrentGameBySocket] finds for a socket is what it found before. *)
Theorem newgame_without_role_still_pushes sock m w :
  role_slot (msg_role m) = inr None ->
  no_game_of m (ongoingGames w) ->
  let o := on_newgame sock (Some m) w in
  raised o = None
  /\ world o =
       mkWorld
         (ongoingGames w
          ++ [mkGame (Some (mkParticipant (msg_student m) (Str "") Undefined))
                (Some (mkParticipant (msg_mentor m) (Str "") Undefined))
                chess_new []])
         (sessions w) (rooms w) (written w)
  /\ emitted o =
       [mkEmission ToAll invalid_role_event NoPayload;
        mkEmission ToAll "boardstate"
          (Object [("boardState", FText (fen chess_new)); ("color", FNull)])]
  /\ (forall s, s <> "" ->
        findCurrentGameBySocket (world o) s = findCurrentGameBySocket w s).
Proof.
  intros Hr Hnone o.
  destruct (role_slot_None _ Hr) as [Hs Hm].
  assert (Ho : o = returns
            (mkWorld
               (ongoingGames w
                ++ [mkGame
                      (Some (mkParticipant (msg_student m) (Str "") Undefined))
                      (Some (mkParticipant (msg_mentor m) (Str "") Undefined))
                      chess_new []])
               (sessions w) (rooms w) (written w))
            [mkEmission ToAll invalid_role_event NoPayload;
             mkEmission ToAll "boardstate"
               (Object [("boardState", FText (fen chess_new));
                        ("color", FNull)])]).
  { subst o. unfold on_newgame. rewrite (ongoing_game_none _ _ Hnone), Hr.
    unfold clientColor. rewrite Hs, Hm. reflexivity. }
  rewrite Ho. simpl. repeat split. intros s Hne.
  unfold findCurrentGameBySocket. simpl. rewrite find_first_snoc_false;
    [reflexivity|].
  unfold bound_to. simpl. destruct s; [contradiction|reflexivity].
Qed.


(** ** Requests one after the other *)








(** ** What can throw *)









(** ** joinSession and createSession, case by case *)



(** X18. [newgame] with the role [student] or [mentor], when no stored game
    is of either player: nothing is raised, one game is pushed, and the one
    emission is a [boardstate] with the text of the initial position and the
    colour black, sent by [io.emit]: every connected socket receives it. *)
Theorem newgame_create_reaches_everyone io sock m w r :
  no_game_of m (ongoingGames w) ->
  msg_role m = Str (slot_name r) ->
  let o := on_newgame sock (Some m) w in
  let initial_state :=
    mkEmission ToAll "boardstate"
      (Object [("boardState", FText (fen chess_new));
               ("color", FText "black")]) in
  raised o = None
  /\ length (ongoingGames (world o)) = S (length (ongoingGames w))
  /\ sessions (world o) = sessions w
  /\ emitted o = [initial_state]
  /\ receivers io initial_state = io.
Proof.
  intros Hnone Hrole o initial_state. subst o. unfold on_newgame.
  rewrite (ongoing_game_none _ _ Hnone), Hrole, role_slot_string. simpl.
  split; [reflexivity|]. split; [rewrite length_app; simpl; lia|].
  split; [reflexivity|]. split; [destruct r; reflexivity|reflexivity].
Qed.


(** X20. [joinSession] for an id that is not registered and that
    [sessions] inherits from [Object.prototype]: the handler does not take
    the session for missing. It raises nothing and leaves both stores as
    they are, and its one emission is an [error] to the requester that is
    not the not-found message: the role-taken message when the inherited
    object has the role, the message of [catch] otherwise. *)
Theorem joinSession_inherited_id io sock m w :
  own_lookup (msg_sessionId m) (sessions w) = None ->
  inherited (msg_sessionId m) = true ->
  let o := on_joinSession io sock (Some m) w in
  raised o = None
  /\ ongoingGames (world o) = ongoingGames w
  /\ sessions (world o) = sessions w
  /\ exists text,
       emitted o = [mkEmission (ToSocket sock) "error" (Text text)]
       /\ text <> not_found (msg_sessionId m)
       /\ (text = "Invalid joinSession payload"
           \/ exists r, key_of (msg_sessionRole m) = inr r
                        /\ text = role_taken r).
Proof.
  intros Hl Hin o. subst o. unfold on_joinSession. rewrite Hl, Hin.
  unfold join_inherited.
  assert (Hcatch : "Invalid joinSession payload" <> not_found (msg_sessionId m))
    by discriminate.
  destruct (key_of _) as [e|r] eqn:Hr; simpl.
  { repeat split. exists "Invalid joinSession payload". auto. }
  destruct (inherited_has _ _ _) as [e|[|]]; simpl.
  - repeat split. exists "Invalid joinSession payload". auto.
  - repeat split. exists (role_taken r). split; [reflexivity|].
    split; [discriminate|]. right. exists r. auto.
  - unfold inherited_write.
    destruct (String.eqb (msg_sessionId m) "__proto__");
      [destruct (String.eqb r "__proto__")|destruct (function_keeps _ _ _)];
      simpl; repeat split; exists "Invalid joinSession payload"; auto.
Qed.

(** ** No handler reads [pastStates] *)

Lemma find_first_ext {A} (p q : A -> bool) (l : list A) :
  (forall x, p x = q x) -> find_first p l = find_first q l.
Proof.
  intros Hpq. induction l as [|x l IH]; simpl; [reflexivity|].
  rewrite Hpq, IH. reflexivity.
Qed.

Lemma find_first_fmap {A B} (f : A -> B) (p : B -> bool) (l : list A) :
  find_first p (f <$> l) =
    (fun ix => (fst ix, f (snd ix))) <$> find_first (fun x => p (f x)) l.
Proof.
  induction l as [|x l IH]; csimpl; [reflexivity|].
  destruct (p (f x)); [reflexivity|]. rewrite IH.
  destruct (find_first _ l) as [[i y]|]; reflexivity.
Qed.

Lemma findCurrentGameBySocket_forget w sock :
  findCurrentGameBySocket (forget_world w) sock =
    (fun rg => (fst rg, forget (snd rg))) <$> findCurrentGameBySocket w sock.
Proof.
  unfold findCurrentGameBySocket, forget_world. simpl.
  rewrite !find_first_fmap.
  rewrite (find_first_ext (fun x => bound_to sock (forget x)) (bound_to sock))
    by reflexivity.
  rewrite (find_first_ext (fun x => bound_to sock (snd (forget_entry x)))
             (fun kv => bound_to sock (snd kv))) by reflexivity.
  destruct (find_first (bound_to sock) _) as [[i g]|]; simpl; [reflexivity|].
  destruct (find_first _ (sessions w)) as [[i [k g]]|]; reflexivity.
Qed.

Lemma mutate_forget f r w :
  (forall g, forget (f g) = f (forget g)) ->
  mutate f r (forget_world w) = forget_world (mutate f r w).
Proof.
  intros Hf. destruct r as [i|i]; unfold mutate, forget_world; simpl; f_equal;
    symmetry; apply list_fmap_alter, Forall_true.
  - exact Hf.
  - intros [k g]. unfold forget_entry. simpl. rewrite Hf. reflexivity.
Qed.

Lemma ongoing_game_forget m l :
  ongoing_game m (forget <$> l) =
    match ongoing_game m l with
    | inl e => inl e
    | inr (Some (i, g)) => inr (Some (i, forget g))
    | inr None => inr None
    end.
Proof.
  induction l as [|x l IH]; csimpl; [reflexivity|].
  change (same_player m (forget x)) with (same_player m x).
  destruct (same_player m x) as [e|[|]]; try reflexivity.
  rewrite IH. destruct (ongoing_game m l) as [e|[[i g]|]]; reflexivity.
Qed.

Lemma own_lookup_forget k (l : list (string * Game)) :
  own_lookup k (forget_entry <$> l) = forget <$> own_lookup k l.
Proof.
  induction l as [|[k' v] l IH]; csimpl; [reflexivity|].
  destruct (String.eqb k' k); [reflexivity|exact IH].
Qed.

Lemma own_insert_forget k v (l : list (string * Game)) :
  own_insert k (forget v) (forget_entry <$> l) = forget_entry <$> own_insert k v l.
Proof.
  unfold own_insert. destruct (array_index k) as [n|].
  - induction l as [|[k' v'] l IH]; csimpl; [reflexivity|].
    destruct (array_index k') as [i|]; [destruct (i <? n)%N|]; csimpl;
      try reflexivity.
    rewrite IH. reflexivity.
  - rewrite fmap_app. reflexivity.
Qed.

Lemma own_alter_forget f k (l : list (string * Game)) x :
  own_lookup k l = Some x ->
  forget (f x) = f (forget x) ->
  own_alter f k (forget_entry <$> l) = forget_entry <$> own_alter f k l.
Proof.
  intros Hx Hf. induction l as [|[k' v] l IH]; csimpl; [reflexivity|].
  simpl in Hx. destruct (String.eqb k' k); csimpl.
  - injection Hx as ->. unfold forget_entry. simpl. rewrite Hf. reflexivity.
  - rewrite (IH Hx). reflexivity.
Qed.

Lemma endgame_forEach_forget io m n index l :
  endgame_forEach io m n index (forget <$> l) =
    let '(games, out, e) := endgame_forEach io m n index l in
    (forget <$> games, out, e).
Proof.
  revert index l. induction n as [|n IH]; intros index l; simpl;
    [reflexivity|].
  rewrite list_lookup_fmap. destruct (l !! index) as [game|]; simpl;
    [|reflexivity].
  change (same_pair m (forget game)) with (same_pair m game).
  destruct (same_pair m game) as [e|[|]]; [reflexivity| |apply IH].
  rewrite <- list_fmap_delete, IH.
  destruct (endgame_forEach io m n (S index) (delete index l))
    as [[games out] e]. reflexivity.
Qed.

Lemma forget_set_slot_id r v g :
  forget (set_slot_id r v g) = set_slot_id r v (forget g).
Proof.
  unfold set_slot_id.
  destruct r; simpl; [destruct (student g)|destruct (mentor g)]; reflexivity.
Qed.

Lemma forget_set_property r p g :
  has_property r g = false ->
  forget (set_property r p g) = set_property r p (forget g).
Proof.
  unfold has_property, set_property. intros Hfree.
  destruct (String.eqb r "student"); [reflexivity|].
  destruct (String.eqb r "mentor"); [reflexivity|].
  destruct (String.eqb r "boardState"); [discriminate|].
  destruct (String.eqb r "pastStates"); [discriminate|]. reflexivity.
Qed.

Lemma forget_forget g : forget (forget g) = forget g.
Proof. reflexivity. Qed.

Lemma forget_world_forget w : forget_world (forget_world w) = forget_world w.
Proof.
  unfold forget_world. simpl. rewrite <- !list_fmap_compose. reflexivity.
Qed.

Lemma forget_outcome_forget o : forget_outcome (forget_outcome o) = forget_outcome o.
Proof. unfold forget_outcome. simpl. rewrite forget_world_forget. reflexivity. Qed.

(** Every handler but [createSession] does on the emptied registry what it
    does on the registry, up to the emptying. *)
Lemma handle_forget io sock ev w :
  (forall msg, ev <> createSession msg) ->
  handle io sock ev (forget_world w) = forget_outcome (handle io sock ev w).
Proof.
  intros Hev.
  destruct ev as [msg|msg|msg|msg|msg|msg|msg|k msg]; simpl.
  - (* newgame *)
    unfold on_newgame. destruct msg as [m|]; [|reflexivity].
    change (ongoingGames (forget_world w)) with (forget <$> ongoingGames w).
    rewrite ongoing_game_forget.
    destruct (ongoing_game m (ongoingGames w)) as [e|[[i g]|]]; try reflexivity.
    + destruct (role_slot (msg_role m)) as [e|branch]; [reflexivity|].
      unfold rebind.
      change (boardState (forget g)) with (boardState g).
      destruct branch as [r|].
      * assert (Hslot : slot r (forget g) = slot r g) by (destruct r; reflexivity).
        rewrite Hslot. destruct (slot r g); [|reflexivity].
        rewrite (mutate_forget _ (InGames i) w (forget_set_slot_id r (Str sock))).
        destruct (boardState g); reflexivity.
      * destruct (boardState g); reflexivity.
    + destruct (role_slot (msg_role m)) as [e|branch]; [reflexivity|].
      unfold forget_outcome, forget_world. simpl. rewrite fmap_app.
      reflexivity.
  - (* createSession *)
    destruct (Hev msg). reflexivity.
  - (* joinSession *)
    unfold on_joinSession. destruct msg as [m|]; [|reflexivity].
    change (sessions (forget_world w)) with (forget_entry <$> sessions w).
    rewrite own_lookup_forget.
    destruct (own_lookup _ (sessions w)) as [session|] eqn:Hl; simpl.
    + unfold join_registered.
      destruct (key_of (msg_sessionRole m)) as [e|r]; [reflexivity|].
      change (has_property r (forget session)) with (has_property r session).
      destruct (has_property r session) eqn:Hfree; [reflexivity|].
      change (sessions (forget_world w)) with (forget_entry <$> sessions w).
      rewrite (own_alter_forget _ _ _ _ Hl (forget_set_property r _ _ Hfree)).
      rewrite <- (forget_set_property r _ _ Hfree).
      change (boardState (forget ?x)) with (boardState x).
      destruct (boardState _); reflexivity.
    + destruct (inherited _); [|reflexivity]. unfold join_inherited.
      destruct (key_of (msg_sessionRole m)) as [e|r]; [reflexivity|].
      change (inherited_has (forget_world w)) with (inherited_has w).
      destruct (inherited_has w _ r) as [e|[|]]; try reflexivity.
      unfold inherited_write. simpl.
      destruct (String.eqb (msg_sessionId m) "__proto__");
        [destruct (String.eqb r "__proto__")|destruct (function_keeps _ _ _)];
        reflexivity.
  - (* move *)
    unfold on_move. destruct msg as [m|]; [|reflexivity].
    rewrite findCurrentGameBySocket_forget.
    destruct (findCurrentGameBySocket w sock) as [[r g]|]; [|reflexivity].
    simpl. destruct (boardState g) as [c|p]; [|reflexivity].
    destruct (chess_move _ _ _) as [c' ok].
    rewrite (mutate_forget (set_boardState (Engine c')) r w (fun g => eq_refl)).
    reflexivity.
  - (* endgame *)
    unfold on_endgame. destruct msg as [m|]; [|reflexivity].
    change (ongoingGames (forget_world w)) with (forget <$> ongoingGames w).
    rewrite length_fmap, endgame_forEach_forget.
    destruct (endgame_forEach _ _ _ _ _) as [[games out] e]. reflexivity.
  - (* undo *)
    unfold on_undo. destruct msg as [m|]; [|reflexivity].
    rewrite findCurrentGameBySocket_forget.
    destruct (findCurrentGameBySocket w sock) as [[r g]|]; [|reflexivity].
    simpl. destruct (boardState g) as [c|p]; [|reflexivity].
    rewrite (mutate_forget (set_boardState (Engine (fst (chess_undo c)))) r w
               (fun g => eq_refl)).
    reflexivity.
  - (* setstate *)
    unfold on_setstate. destruct msg as [m|]; [|reflexivity].
    rewrite findCurrentGameBySocket_forget.
    destruct (findCurrentGameBySocket w sock) as [[r g]|]; [|reflexivity].
    simpl. destruct (chess_load _) as [c|]; [|reflexivity].
    rewrite (mutate_forget (set_boardState (Engine c)) r w (fun g => eq_refl)).
    reflexivity.
  - (* relayed *)
    unfold on_relay. rewrite findCurrentGameBySocket_forget.
    destruct (findCurrentGameBySocket w sock) as [[r g]|]; [|reflexivity].
    simpl. destruct msg as [parsedmsg|]; [|reflexivity].
    change (to_other io sock (forget g)) with (to_other io sock g).
    destruct k; try reflexivity; destruct (to_other _ _ _ _ _); reflexivity.
Qed.

Lemma returns_forget w out :
  forget_outcome (returns (forget_world w) out) = forget_outcome (returns w out).
Proof.
  unfold forget_outcome, returns. cbn [world emitted raised].
  rewrite forget_world_forget. reflexivity.
Qed.

Lemma createSession_forget sock msg w :
  forget_outcome (on_createSession sock msg (forget_world w))
  = forget_outcome (on_createSession sock msg w).
Proof.
  unfold on_createSession. destruct msg as [m|]; [|apply returns_forget].
  cbv zeta.
  change (sessions (forget_world w)) with (forget_entry <$> sessions w).
  rewrite own_lookup_forget.
  destruct (own_lookup _ (sessions w)); [apply returns_forget|].
  cbn [fmap option_fmap option_map].
  destruct (inherited _); [apply returns_forget|].
  destruct (key_of _) as [e|r]; [apply returns_forget|].
  unfold forget_outcome, forget_world. simpl. f_equal. f_equal.
  - rewrite <- list_fmap_compose. reflexivity.
  - rewrite <- !own_insert_forget. f_equal. rewrite <- list_fmap_compose.
    reflexivity.
Qed.

(** X21. [pastStates] is written by the literals of [newgame] and
    [createSession] and by nothing else. The game that [newgame] pushes
    has the empty array, and so has the session that [createSession]
    registers unless the role of the message is the word [pastStates];
    with that role the field holds the creator. No event changes the field
    of a game or session that is stored. In every registry that the process
    can reach the field of every game is the empty array, and no session
    holds an array with an element. And no handler reads the field: on the
    registry with every [pastStates] emptied a handler emits and raises the
    same and leaves the same registry, up to the emptying. *)
Theorem pastStates_is_never_used io sock ev w :
  (forall m branch, pastStates (new_game m branch sock) = States [])
  /\ (forall m r,
        pastStates (new_session m r sock)
        = if String.eqb r "pastStates"
          then PastHeld (mkParticipant (msg_username m) (Str sock)
                           (session_color (msg_sessionRole m)))
          else States [])
  /\ evolves keeps_history ev w (world (handle io sock ev w))
  /\ (reachable w ->
      Forall history_empty (ongoingGames w)
      /\ Forall (fun kv => history_unused (snd kv)) (sessions w))
  /\ forget_outcome (handle io sock ev (forget_world w))
     = forget_outcome (handle io sock ev w).
Proof.
  split; [|split; [|split; [|split]]].
  - reflexivity.
  - intros m r. unfold new_session, set_property.
    destruct (String.eqb_spec r "student") as [->|_]; [reflexivity|].
    destruct (String.eqb_spec r "mentor") as [->|_]; [reflexivity|].
    destruct (String.eqb_spec r "boardState") as [->|_]; [reflexivity|].
    destruct (String.eqb r "pastStates"); reflexivity.
  - apply handle_evolves.
    + reflexivity.
    + reflexivity.
    + intros g r v. unfold keeps_history, set_slot_id.
      destruct (slot r g); [destruct r|]; reflexivity.
    + intros g r p Hfree. apply set_property_history, Hfree.
  - intros Hw.
    apply (reachable_satisfies history_empty history_unused) with (allowed := any_event);
      try exact Hw.
    + intros g c H. exact H.
    + intros g r v H. unfold history_empty, set_slot_id.
      destruct (slot r g); [destruct r|]; exact H.
    + reflexivity.
    + intros g c H. exact H.
    + intros m r s h. unfold new_session, set_property.
      destruct (String.eqb r "student"); [intros [= <-]; reflexivity|].
      destruct (String.eqb r "mentor"); [intros [= <-]; reflexivity|].
      destruct (String.eqb r "boardState"); [intros [= <-]; reflexivity|].
      destruct (String.eqb r "pastStates"); [discriminate|].
      intros [= <-]; reflexivity.
    + intros g r p H Hfree h. rewrite (set_property_history _ _ _ Hfree).
      apply H.
  - destruct ev as [msg|msg|msg|msg|msg|msg|msg|k msg];
      try (rewrite handle_forget by discriminate; apply forget_outcome_forget).
    apply createSession_forget.
Qed.

(** ** What the relayed events carry *)

Lemma safeEmit_carries io v ev p e :
  In e (safeEmit io v ev p) -> event e = ev /\ payload e = p.
Proof.
  unfold safeEmit. destruct (negb (truthy v)); [intros []|].
  destruct v as [| |t|[]]; try (intros []).
  destruct (is_connected io t); [|intros []].
  intros [<-|[]]. split; reflexivity.
Qed.

(** X22. What a relayed event carries. Every emission of the handler has
    the name of the event, and its payload is the object with the fields
    that the handler reads from the message, those of them that the message
    has, with the values that the message gives them: [from] and [to] for
    [lastmove] and [highlight], [to] for [addgrey], [x] and [y] for
    [mousexy], [piece] for [piecedrag], and no field for [removegrey] and
    [piecedrop]. *)
Theorem relayed_event_carries_its_fields k io sock parsedmsg w e :
  In e (emitted (on_relay k io sock (Some parsedmsg) w)) ->
  let read name :=
    match field name parsedmsg with
    | Some j => [(name, FJson j)]
    | None => []
    end in
  event e =
    match k with
    | lastmove => "lastmove"
    | addgrey => "addgrey"
    | removegrey => "removegrey"
    | mousexy => "mousexy"
    | piecedrop => "piecedrop"
    | piecedrag => "piecedrag"
    | highlight => "highlight"
    end
  /\ payload e =
       Object
         match k with
         | lastmove | highlight => read "from" ++ read "to"
         | addgrey => read "to"
         | mousexy => read "x" ++ read "y"
         | piecedrag => read "piece"
         | removegrey | piecedrop => []
         end.
Proof.
  intros He read.
  assert (Hcarried : event e = relay_name k
                     /\ payload e = relay_payload k parsedmsg).
  { unfold on_relay in He.
    destruct (findCurrentGameBySocket w sock) as [[r g]|]; [|destruct He].
    assert (Hboth : In e (to_both io g (relay_name k) (relay_payload k parsedmsg))
                    -> event e = relay_name k
                       /\ payload e = relay_payload k parsedmsg).
    { unfold to_both. intros Hin. apply in_app_or in Hin.
      destruct Hin as [Hin|Hin]; exact (safeEmit_carries _ _ _ _ _ Hin). }
    assert (Hother : forall out,
              to_other io sock g (relay_name k) (relay_payload k parsedmsg)
              = inr out ->
              In e out ->
              event e = relay_name k /\ payload e = relay_payload k parsedmsg).
    { unfold to_other. intros out Hout Hin.
      destruct (mentor g) as [pm|]; [|discriminate].
      destruct (loose_neq (id pm) (Str sock)).
      - injection Hout as <-. exact (safeEmit_carries _ _ _ _ _ Hin).
      - destruct (student g) as [ps|]; [|discriminate].
        destruct (loose_neq (id ps) (Str sock)); injection Hout as <-;
          [exact (safeEmit_carries _ _ _ _ _ Hin)|destruct Hin]. }
    destruct k; try (apply Hboth; exact He);
      destruct (to_other _ _ _ _ _) as [x|out] eqn:Hout;
      try destruct He; exact (Hother out eq_refl He). }
  destruct Hcarried as [-> ->]. subst read.
  split; [destruct k; reflexivity|].
  destruct k; unfold relay_payload, JSON_stringify, of_json; simpl;
    repeat match goal with
           | |- context [field ?n parsedmsg] => destruct (field n parsedmsg)
           end; reflexivity.
Qed.

(** ** setstate *)

End Further.

(** * The further properties on the toy engine *)

Lemma reachable_two_games : reachable Toy.two_games.
Proof.
  apply reachable_handle;
    [apply reachable_paired; exact I|apply pristine_unwritten; reflexivity
    |exact I].
Qed.


Lemma plain_names_two_games : Forall plain_names (ongoingGames Toy.two_games).
Proof.
  change (ongoingGames Toy.two_games) with [Toy.paired_game; Toy.carol_game].
  repeat constructor; intros [] p [= <-]; exact I.
Qed.

Lemma safeEmit_at_most_once_witness :
  safeEmit Toy.io (Str "m1") "reset" (@NoPayload Toy.engine)
  = [mkEmission (ToSocket "m1") "reset" NoPayload]
  /\ safeEmit Toy.io (Str "gone") "reset" (@NoPayload Toy.engine) = [].
Proof.
  split.
  - exact (proj1 (proj1 (safeEmit_at_most_once (E := Toy.engine) Toy.io
                           (Str "m1") "reset" NoPayload)
                    "m1" eq_refl ltac:(discriminate) eq_refl)).
  - apply (proj2 (safeEmit_at_most_once (E := Toy.engine) Toy.io (Str "gone")
                    "reset" NoPayload)).
    intros t [= <-]. right. reflexivity.
Defined.


Lemma ongoing_games_have_distinct_players_witness :
  reachable Toy.two_games
  /\ strangers (names Toy.paired_game) (names Toy.carol_game).
Proof.
  split; [exact reachable_two_games|].
  exact (ongoing_games_have_distinct_players Toy.two_games 0 1 Toy.paired_game
           Toy.carol_game reachable_two_games ltac:(lia) eq_refl eq_refl).
Defined.

(** [endgame] for Alice and Bob among two games: their game goes, Carol's
    stays, and both of their connections get [reset]. *)
Lemma endgame_removes_the_game_of_the_pair_witness :
  let o := on_endgame Toy.io (Some Toy.alice_and_bob) Toy.two_games in
  ongoingGames (world o) = [Toy.carol_game]
  /\ emitted o = [mkEmission (ToSocket "m1") "reset" NoPayload;
                  mkEmission (ToSocket "s1") "reset" NoPayload].
Proof.
  destruct (endgame_removes_the_game_of_the_pair Toy.io Toy.alice_and_bob
              Toy.two_games reachable_two_games I I plain_names_two_games)
    as (_ & _ & Hgone & _).
  apply (Hgone 0 Toy.paired_game eq_refl).
  eexists _, _. split; [reflexivity|]. split; [reflexivity|].
  split; reflexivity.
Defined.




(** Alice joins Bob's session: Bob is still its mentor, from the socket
    [b]. *)
Lemma named_sessions_persist_witness :
  exists s',
    own_lookup "abc"
      (sessions (world (handle Toy.io "a" (joinSession (Some Toy.alice_joins))
                          Toy.created_by_mentor))) = Some s'
    /\ mentor s' = Some (mkParticipant (Str "Bob") (Str "b") white).
Proof.
  destruct (named_sessions_persist Toy.io "a" (joinSession (Some Toy.alice_joins))
              Toy.created_by_mentor "abc" Toy.created_by_mentor_session eq_refl)
    as (s' & Hs' & Hkeeps & _).
  exists s'. split; [exact Hs'|]. exact (Hkeeps mentor_slot _ eq_refl).
Defined.


Lemma newgame_without_role_still_pushes_witness :
  role_slot (msg_role Toy.coach) = inr None
  /\ length (ongoingGames (world (on_newgame "s1" (Some Toy.coach) Toy.empty)))
     = 1
  /\ findCurrentGameBySocket (world (on_newgame "s1" (Some Toy.coach) Toy.empty))
       "s1" = None.
Proof.
  split; [reflexivity|].
  destruct (newgame_without_role_still_pushes "s1" Toy.coach Toy.empty eq_refl
              ltac:(constructor)) as (_ & Hworld & _ & Hunbound).
  split.
  - rewrite Hworld. reflexivity.
  - rewrite (Hunbound "s1" ltac:(discriminate)). reflexivity.
Defined.






(** In the session that Alice created with the role [boardState] and Bob
    joined as mentor, [boardState] holds Alice and [move] has no engine to
    call. *)
Example move_without_engine_throws :
  on_move Toy.io "b" (Some (Toy.squares "e2" "e4")) Toy.held_by_alice
  = throw Toy.held_by_alice [] TypeError.
Proof. reflexivity. Qed.



(** Alice's [newgame] on the empty registry: the initial position and the
    colour black go to all four connections. *)
Lemma newgame_create_reaches_everyone_witness :
  let initial_state :=
    mkEmission ToAll "boardstate"
      (Object [("boardState", FText ""); ("color", FText "black")]) in
  emitted (on_newgame "s1" (Some Toy.alice_as_student) Toy.empty)
  = [initial_state]
  /\ receivers Toy.io initial_state = ["s1"; "m1"; "a"; "b"].
Proof.
  destruct (newgame_create_reaches_everyone Toy.io "s1" Toy.alice_as_student
              Toy.empty student_slot ltac:(constructor) eq_refl)
    as (_ & _ & _ & Hout & Hall).
  split; [exact Hout|exact Hall].
Defined.


(** [joinSession] for [toString] on the empty registry leaves both stores
    empty. *)
Lemma joinSession_inherited_id_witness :
  let o := on_joinSession Toy.io "a" (Some Toy.alice_joins_toString)
             Toy.empty in
  raised o = None /\ ongoingGames (world o) = [] /\ sessions (world o) = [].
Proof.
  destruct (joinSession_inherited_id Toy.io "a" Toy.alice_joins_toString
              Toy.empty eq_refl eq_refl) as (Hraised & Hgames & Hsessions & _).
  split; [exact Hraised|]. split; [exact Hgames|exact Hsessions].
Defined.

(** Both games of the registry with two games have the empty array. *)
Lemma pastStates_is_never_used_witness :
  reachable Toy.two_games
  /\ Forall history_empty (ongoingGames Toy.two_games).
Proof.
  split; [exact reachable_two_games|].
  destruct (pastStates_is_never_used Toy.io "s1" (undo None) Toy.two_games)
    as (_ & _ & _ & Hempty & _).
  exact (proj1 (Hempty reachable_two_games)).
Defined.

(** Alice, paired with Bob, sends [addgrey] for [e4]: what Bob's connection
    gets is the event [addgrey] with the object whose [to] is [e4]. *)
Lemma relayed_event_carries_its_fields_witness :
  let e := mkEmission (ToSocket "m1") "addgrey" (Object [("to", @FJson Toy.engine "e4")]) in
  In e (emitted (on_relay addgrey Toy.io "s1" (Some (Toy.square "e4"))
                  Toy.paired))
  /\ event e = "addgrey"
  /\ payload e = Object [("to", @FJson Toy.engine "e4")].
Proof.
  intros e.
  assert (He : In e (emitted (on_relay addgrey Toy.io "s1"
                                (Some (Toy.square "e4")) Toy.paired)))
    by (left; reflexivity).
  split; [exact He|].
  exact (relayed_event_carries_its_fields addgrey Toy.io "s1"
           (Toy.square "e4") Toy.paired e He).
Defined.

